(** * gospec: identifiers in several case conventions, and import aliases

    A shallow embedding of [identifier.go] and [imports.go].

    Go strings are byte sequences, so they are embedded as [string] (a list
    of 8-bit [ascii]); a [rune] is a code point in [Z].  The standard
    library functions the two files call ([utf8], [unicode], [strings],
    and the one regular expression of [imports.go]) are embedded next to them.
    The Unicode tables above ASCII are not part of the repository: they are a
    parameter ([unicode.Tables]); on ASCII every function is written out. *)

From Stdlib Require Import ZArith Ascii String List Bool Lia.
From stdpp Require Import base gmap strings list fin_maps.

Abbreviation rune := Z (only parsing).

(** The value of a byte, and the byte of a value below 256. *)
Definition byte_val (c : ascii) : Z := Z.of_N (N_of_ascii c).
Definition byte_of (z : Z) : ascii := ascii_of_N (Z.to_N z).

(** Dropping the first [n] bytes of a string: the slice [s[n:]]. *)
Fixpoint drop_bytes (n : nat) (s : string) : string :=
  match n, s with
  | O, _ => s
  | S _, EmptyString => EmptyString
  | S k, String _ t => drop_bytes k t
  end.

(** The first [n] bytes of a string: the slice [s[:n]]. *)
Fixpoint take_bytes (n : nat) (s : string) : string :=
  match n, s with
  | O, _ => EmptyString
  | S _, EmptyString => EmptyString
  | S k, String c t => String c (take_bytes k t)
  end.

(** ** Package [unicode/utf8] *)
Module utf8.

Definition RuneError : rune := 0xFFFD%Z.
Definition RuneSelf : Z := 0x80%Z.
Definition MaxRune : rune := 0x10FFFF%Z.
Definition UTFMax : nat := 4.
Definition locb : Z := 0x80%Z.
Definition hicb : Z := 0xBF%Z.

(** The table [first], read together with [acceptRanges]: for a leading
    byte, the length of the sequence and the range its second byte must lie
    in; [None] for the entries [as] and [xx], which the callers reach only
    for bytes from [RuneSelf] on, where they mean an invalid leading byte. *)
Definition first (s0 : Z) : option (nat * Z * Z) :=
  if (s0 <? 0xC2)%Z then None
  else if (s0 <=? 0xDF)%Z then Some (2, locb, hicb)
  else if (s0 =? 0xE0)%Z then Some (3, 0xA0%Z, hicb)
  else if (s0 =? 0xED)%Z then Some (3, locb, 0x9F%Z)
  else if (s0 <=? 0xEF)%Z then Some (3, locb, hicb)
  else if (s0 =? 0xF0)%Z then Some (4, 0x90%Z, hicb)
  else if (s0 <=? 0xF3)%Z then Some (4, locb, hicb)
  else if (s0 =? 0xF4)%Z then Some (4, locb, 0x8F%Z)
  else None.

(** A continuation byte lies in [locb, hicb]. *)
Definition cont (b : Z) : bool := (locb <=? b)%Z && (b <=? hicb)%Z.

(** [DecodeRuneInString]: the first rune of [s] and its width in bytes.
    The masks and shifts of the Go code are written arithmetically:
    [b & maskx] is [b mod 64] and [x << 6 | y] is [x * 64 + y]. *)
Definition DecodeRuneInString (s : string) : rune * nat :=
  match s with
  | EmptyString => (RuneError, 0)
  | String c0 t0 =>
    let s0 := byte_val c0 in
    if (s0 <? RuneSelf)%Z then (s0, 1) else
    match first s0 with
    | None => (RuneError, 1)
    | Some (sz, lo, hi) =>
      if String.length s <? sz then (RuneError, 1) else
      match t0 with
      | EmptyString => (RuneError, 1)
      | String c1 t1 =>
        let s1 := byte_val c1 in
        if (s1 <? lo)%Z || (hi <? s1)%Z then (RuneError, 1) else
        if sz <=? 2 then (((s0 mod 32) * 64 + s1 mod 64)%Z, 2) else
        match t1 with
        | EmptyString => (RuneError, 1)
        | String c2 t2 =>
          let s2 := byte_val c2 in
          if negb (cont s2) then (RuneError, 1) else
          if sz <=? 3 then
            (((s0 mod 16) * 4096 + (s1 mod 64) * 64 + s2 mod 64)%Z, 3) else
          match t2 with
          | EmptyString => (RuneError, 1)
          | String c3 _ =>
            let s3 := byte_val c3 in
            if negb (cont s3) then (RuneError, 1) else
            (((s0 mod 8) * 262144 + (s1 mod 64) * 4096
              + (s2 mod 64) * 64 + s3 mod 64)%Z, 4)
          end
        end
      end
    end
  end.

(** [RuneStart]: the byte is not a continuation byte. *)
Definition RuneStart (b : Z) : bool := negb (cont b).

(** The backwards search of [DecodeLastRuneInString]: [rev_tail] holds the
    bytes before the last one, nearest first; the result is how many of
    them precede the last byte in the sequence to decode.  At most
    [UTFMax - 1] bytes are looked at. *)
Fixpoint lastStart (budget : nat) (rev_tail : list ascii) : nat :=
  match budget, rev_tail with
  | _, [] => 0
  | O, _ :: _ => 1
  | S k, b :: rest =>
    if RuneStart (byte_val b) then 1 else S (lastStart k rest)
  end.

(** [DecodeLastRuneInString]: the last rune of [s] and its width. *)
Definition DecodeLastRuneInString (s : string) : rune * nat :=
  match rev (list_ascii_of_string s) with
  | [] => (RuneError, 0)
  | b :: rest =>
    let r := byte_val b in
    if (r <? RuneSelf)%Z then (r, 1) else
    let back := lastStart (UTFMax - 1) rest in
    let start := String.length s - 1 - back in
    let '(r', size) := DecodeRuneInString (drop_bytes start s) in
    if start + size =? String.length s then (r', size) else (RuneError, 1)
  end.

(** [AppendRune] to an empty buffer: the UTF-8 encoding of [r]; a rune that
    is out of range or a surrogate is written as [RuneError]. *)
Definition EncodeRune (r : rune) : string :=
  if (0 <=? r)%Z && (r <=? 0x7F)%Z then String (byte_of r) EmptyString
  else if (0 <=? r)%Z && (r <=? 0x7FF)%Z then
    String (byte_of (0xC0 + r / 64))
      (String (byte_of (0x80 + r mod 64)) EmptyString)
  else if (r <? 0)%Z || (MaxRune <? r)%Z
          || ((0xD800 <=? r)%Z && (r <=? 0xDFFF)%Z) then
    String (byte_of 0xEF) (String (byte_of 0xBF)
      (String (byte_of 0xBD) EmptyString))
  else if (r <=? 0xFFFF)%Z then
    String (byte_of (0xE0 + r / 4096))
      (String (byte_of (0x80 + (r / 64) mod 64))
        (String (byte_of (0x80 + r mod 64)) EmptyString))
  else
    String (byte_of (0xF0 + r / 262144))
      (String (byte_of (0x80 + (r / 4096) mod 64))
        (String (byte_of (0x80 + (r / 64) mod 64))
          (String (byte_of (0x80 + r mod 64)) EmptyString))).

(** The runes a [for _, r := range s] loop visits.  [skip] counts the bytes
    still to pass over of the rune decoded last. *)
Fixpoint runes_from (skip : nat) (s : string) : list rune :=
  match s with
  | EmptyString => []
  | String _ t =>
    match skip with
    | S k => runes_from k t
    | O => let '(r, w) := DecodeRuneInString s in r :: runes_from (w - 1) t
    end
  end.

Definition runes (s : string) : list rune := runes_from 0 s.

End utf8.

(** ** Package [unicode] *)
Module unicode.

(** The range tables of the package, for the runes above ASCII. *)
Class Tables := {
  tabLetter : rune -> bool;
  tabNumber : rune -> bool;
  tabUpper : rune -> bool;
  tabTitle : rune -> bool;
  tabSpace : rune -> bool;
  tabToLower : rune -> rune;
  tabToTitle : rune -> rune
}.

Definition MaxASCII : rune := 0x7F%Z.

Definition isASCII (r : rune) : bool := (0 <=? r)%Z && (r <=? MaxASCII)%Z.
Definition asciiUpper (r : rune) : bool := (65 <=? r)%Z && (r <=? 90)%Z.
Definition asciiLower (r : rune) : bool := (97 <=? r)%Z && (r <=? 122)%Z.
Definition asciiDigit (r : rune) : bool := (48 <=? r)%Z && (r <=? 57)%Z.

Section WithTables.
Context {U : Tables}.

Definition IsLetter (r : rune) : bool :=
  if isASCII r then asciiUpper r || asciiLower r else tabLetter r.

Definition IsNumber (r : rune) : bool :=
  if isASCII r then asciiDigit r else tabNumber r.

Definition IsUpper (r : rune) : bool :=
  if isASCII r then asciiUpper r else tabUpper r.

Definition IsTitle (r : rune) : bool :=
  if isASCII r then false else tabTitle r.

(** White space: on ASCII, tab, line feed, vertical tab, form feed,
    carriage return and space. *)
Definition IsSpace (r : rune) : bool :=
  if isASCII r then ((9 <=? r)%Z && (r <=? 13)%Z) || (r =? 32)%Z
  else tabSpace r.

Definition ToLower (r : rune) : rune :=
  if (r <=? MaxASCII)%Z then (if asciiUpper r then r + 32 else r)%Z
  else tabToLower r.

Definition ToTitle (r : rune) : rune :=
  if (r <=? MaxASCII)%Z then (if asciiLower r then r - 32 else r)%Z
  else tabToTitle r.
End WithTables.

End unicode.

(** ** Package [strings] *)
Module strings.

(** [Join]: the elements with [sep] between them. *)
Fixpoint Join (elems : list string) (sep : string) : string :=
  match elems with
  | [] => EmptyString
  | [e] => e
  | e :: rest => e +:+ sep +:+ Join rest sep
  end.

(** [Split] for a separator of one byte, the only use in the repository:
    the substrings between the occurrences of [sep].  [cur] is the
    substring being read; the result always has at least one element. *)
Fixpoint split_go (sep : ascii) (cur : string) (s : string) : list string :=
  match s with
  | EmptyString => [cur]
  | String c t =>
    if Ascii.eqb c sep then cur :: split_go sep EmptyString t
    else split_go sep (cur +:+ String c EmptyString) t
  end.

Definition Split (s : string) (sep : ascii) : list string :=
  split_go sep EmptyString s.

Section WithTables.
Context {U : unicode.Tables}.

(** [TrimLeftFunc(s, unicode.IsSpace)]. *)
Fixpoint trimLeft_from (skip : nat) (s : string) : string :=
  match s with
  | EmptyString => EmptyString
  | String _ t =>
    match skip with
    | S k => trimLeft_from k t
    | O =>
      let '(r, w) := utf8.DecodeRuneInString s in
      if unicode.IsSpace r then trimLeft_from (w - 1) t else s
    end
  end.

Definition TrimLeftSpace (s : string) : string := trimLeft_from 0 s.

(** [lastIndexFunc(s, unicode.IsSpace, false)]: the index of the last rune
    that is not white space, reading backwards from the end [i]; [None] is
    the result -1.  Each turn of the loop lowers [i], so [n] turns, with [n]
    the length of [s], are enough. *)
Fixpoint lastIndexFunc (n : nat) (s : string) (i : nat) : option nat :=
  match n with
  | O => None
  | S k =>
    if i =? 0 then None else
    let '(r, size) := utf8.DecodeLastRuneInString (take_bytes i s) in
    let i := i - size in
    if negb (unicode.IsSpace r) then Some i else lastIndexFunc k s i
  end.

(** [TrimRightFunc(s, unicode.IsSpace)]. *)
Definition TrimRightSpace (s : string) : string :=
  match lastIndexFunc (String.length s) s (String.length s) with
  | Some i =>
    match drop_bytes i s with
    | String c _ =>
      if (utf8.RuneSelf <=? byte_val c)%Z
      then take_bytes (i + snd (utf8.DecodeRuneInString (drop_bytes i s))) s
      else take_bytes (i + 1) s
    | EmptyString => take_bytes (i + 1) s
    end
  | None => take_bytes 0 s
  end.

(** [TrimSpace]: leading and trailing white space removed.  The Go function
    has a fast path for ASCII and is otherwise
    [TrimFunc(s, unicode.IsSpace)], which is what is written here. *)
Definition TrimSpace (s : string) : string :=
  TrimRightSpace (TrimLeftSpace s).
End WithTables.

End strings.

(** ** [identifier.go] *)

(** [Identifier] represents a Go identifier in a variety of common case
    conventions. *)
Record Identifier := {
  Camel : string;
  Kebab : string;
  Natural : string;
  Package : string;
  Pascal : string;
  Snake : string;
  Source : string
}.

(** [parser] manages state for parsing an identifier: the [strings.Builder]
    of the current word, and the words read so far. *)
Record parser := {
  word : string;
  words : list string
}.

(** [shift] adds the current word to the rolling set of words; a no-op if the
    current word is empty. *)
Definition shift (p : parser) : parser :=
  if 0 <? String.length (word p)
  then {| word := EmptyString; words := words p ++ [word p] |}
  else p.

(** [write] adds the given rune to the current word ([WriteRune]). *)
Definition write (p : parser) (r : rune) : parser :=
  {| word := word p +:+ utf8.EncodeRune r; words := words p |}.

Section IdentifierGo.
Context {U : unicode.Tables}.

Definition isUpper (r : rune) : bool :=
  unicode.IsUpper r || unicode.IsTitle r.

Definition isLower (r : rune) : bool :=
  unicode.IsLetter r || unicode.IsNumber r.

(** One turn of the loop of [parse] on the rune [r]. *)
Definition parse_step (p : parser) (r : rune) : parser :=
  let '(r, p) :=
    if isUpper r then (unicode.ToLower r, shift p) else (r, p) in
  if isLower r then write p r else shift p.

(** [parse] the given string into a slice of words. *)
Definition parse (s : string) : list string :=
  let s := strings.TrimSpace s in
  if String.length s =? 0 then []
  else
    let p := fold_left parse_step (utf8.runes s)
                       {| word := EmptyString; words := [] |} in
    words (shift p).

(** [title]: the first rune in title case, the others written back as they
    were read. *)
Definition title (s : string) : string :=
  match utf8.runes s with
  | [] => EmptyString
  | r :: rest =>
    fold_left (fun sb r => sb +:+ utf8.EncodeRune r) rest
              (utf8.EncodeRune (unicode.ToTitle r))
  end.

Definition camel (words : list string) : string :=
  match words with
  | [] => EmptyString
  | w :: rest => fold_left (fun sb w => sb +:+ title w) rest w
  end.

Definition kebab (words : list string) : string := strings.Join words "-".

Definition natural (words : list string) : string := strings.Join words " ".

Definition packge (words : list string) : string := strings.Join words "".

Definition pascal (words : list string) : string :=
  match words with
  | [] => EmptyString
  | _ => fold_left (fun sb w => sb +:+ title w) words EmptyString
  end.

Definition snake (words : list string) : string := strings.Join words "_".

(** [NewIdentifier] parses the supplied string into an [Identifier]. *)
Definition NewIdentifier (s : string) : Identifier :=
  let words := parse s in
  {| Camel := camel words;
     Kebab := kebab words;
     Natural := natural words;
     Package := packge words;
     Pascal := pascal words;
     Snake := snake words;
     Source := s |}.

End IdentifierGo.

(** ** [imports.go] *)

(** The character class of [invalidIdentifierChar],
    [[^[:digit:][:alpha:]_]]: the runes that are not an ASCII digit, an ASCII
    letter or the underscore. *)
Definition invalidIdentifierChar (r : rune) : bool :=
  negb (unicode.asciiDigit r || unicode.asciiUpper r || unicode.asciiLower r
        || (r =? 95)%Z).

(** [invalidIdentifierChar.ReplaceAllString(s, "")]: every rune of the class
    is removed with all its bytes, and a byte that is not valid UTF-8 is read
    as [RuneError], one byte wide.  [skip] counts the bytes left of the rune
    decoded last and [keep] tells whether that rune stays. *)
Fixpoint removeInvalid_from (skip : nat) (keep : bool) (s : string) : string :=
  match s with
  | EmptyString => EmptyString
  | String c t =>
    match skip with
    | S k =>
      if keep then String c (removeInvalid_from k keep t)
      else removeInvalid_from k keep t
    | O =>
      let '(r, w) := utf8.DecodeRuneInString s in
      if invalidIdentifierChar r then removeInvalid_from (w - 1) false t
      else String c (removeInvalid_from (w - 1) true t)
    end
  end.

Definition removeInvalid (s : string) : string := removeInvalid_from 0 true s.

(** [Imports] maps a set of import paths to unique aliases.  The map is one
    that was made: a nil map, on which the first binding of [Add] panics, is
    not a state of the table. *)
Abbreviation Imports := (gmap string string).

(** [_keywords] is the set of the Go language keywords. *)
Definition _keywords : gset string :=
  {[ "break"; "case"; "chan"; "const"; "continue"; "default"; "defer";
     "else"; "fallthrough"; "for"; "func"; "go"; "goto"; "if"; "import";
     "interface"; "map"; "package"; "range"; "return"; "select"; "struct";
     "switch"; "type"; "var" ]}.

(** [isKeyword] returns whether the given string is a Go keyword. *)
Definition isKeyword (s : string) : bool := bool_decide (s ∈ _keywords).

Arguments isKeyword : simpl never.

(** [newAlias] returns an alias for the given set of filepath elements. *)
Definition newAlias (elems : list string) : string :=
  removeInvalid (strings.Join elems "").

Section ImportsGo.
Context {U : unicode.Tables}.

(** [isValid]: the alias is not empty, not a keyword, its first rune is a
    letter, and no entry of the map holds it.  The loop over the runes of
    the alias stops after the first one. *)
Definition isValid (imp : Imports) (alias : string) : bool :=
  if (String.length alias =? 0) || isKeyword alias then false
  else
    match utf8.runes alias with
    | r :: _ =>
      if negb (unicode.IsLetter r) then false
      else forallb (fun kv => negb (String.eqb kv.2 alias)) (map_to_list imp)
    | [] => forallb (fun kv => negb (String.eqb kv.2 alias)) (map_to_list imp)
    end.

(** The first loop of [Add], [for i := 1; i <= len(elems); i++], with [n]
    turns left: the alias tried last, and whether it was valid (the loop then
    returns at once). *)
Fixpoint suffixLoop (imp : Imports) (elems : list string) (n i : nat)
    (alias : string) : string * bool :=
  match n with
  | O => (alias, false)
  | S k =>
    let alias := newAlias (drop (length elems - i) elems) in
    if isValid imp alias then (alias, true)
    else suffixLoop imp elems k (S i) alias
  end.

(** The second loop of [Add], [for !imp.isValid(alias)]: an 'x' is put in
    front until the alias is valid.  [fuel] bounds the number of turns;
    [None] when it runs out. *)
Fixpoint prependX (fuel : nat) (imp : Imports) (alias : string)
    : option string :=
  if isValid imp alias then Some alias
  else
    match fuel with
    | O => None
    | S k => prependX k imp ("x" +:+ alias)
    end.

(** [Add] adds the path to the imports map: the alias returned and the map
    after the call. *)
Definition Add (fuel : nat) (imp : Imports) (path : string)
    : option (string * Imports) :=
  if String.eqb path "" || String.eqb path "." || String.eqb path "/"
  then Some (EmptyString, imp)
  else
    match imp !! path with
    | Some alias => Some (alias, imp)
    | None =>
      let elems := strings.Split path "/"%char in
      match suffixLoop imp elems (length elems) 1 EmptyString with
      | (alias, true) => Some (alias, <[path := alias]> imp)
      | (alias, false) =>
        match prependX fuel imp alias with
        | Some alias => Some (alias, <[path := alias]> imp)
        | None => None
        end
      end
    end.

(** A sequence of calls of [Add] on one map: the aliases returned, in order,
    and the map after the last call. *)
Fixpoint AddAll (fuel : nat) (imp : Imports) (paths : list string)
    : option (list string * Imports) :=
  match paths with
  | [] => Some ([], imp)
  | path :: rest =>
    match Add fuel imp path with
    | None => None
    | Some (alias, imp') =>
      match AddAll fuel imp' rest with
      | None => None
      | Some (aliases, imp'') => Some (alias :: aliases, imp'')
      end
    end
  end.

End ImportsGo.

(** ** Tables for the examples *)

(** The rune is one of the list. *)
Definition rune_in (l : list rune) (r : rune) : bool :=
  existsb (Z.eqb r) l.

(** An excerpt of the tables of Go's [unicode] package, for the examples on
    concrete strings: U+00A0 (no-break space), U+00C9 and U+00E9 (E with
    acute, capital and small), U+2102 (double-struck capital C: an uppercase
    letter without a lowercase form), U+2160 and U+2170 (Roman numeral one,
    capital and small: numbers of category Nl) and U+65E5 (a CJK letter).
    Every other rune above ASCII is in no table here, so the excerpt is used
    only on strings made of ASCII and these runes. *)
Definition excerpt : unicode.Tables := {|
  unicode.tabLetter := rune_in [0xC9; 0xE9; 0x2102; 0x65E5]%Z;
  unicode.tabNumber := rune_in [0x2160; 0x2170]%Z;
  unicode.tabUpper := rune_in [0xC9; 0x2102]%Z;
  unicode.tabTitle := fun _ => false;
  unicode.tabSpace := rune_in [0xA0]%Z;
  unicode.tabToLower := fun r =>
    (if r =? 0xC9 then 0xE9 else if r =? 0x2160 then 0x2170 else r)%Z;
  unicode.tabToTitle := fun r =>
    (if r =? 0xE9 then 0xC9 else if r =? 0x2170 then 0x2160 else r)%Z
|}.

(** ** Vocabulary of the properties *)

(** The aliases in use: the values of the table. *)
Definition usedAlias (imp : Imports) (alias : string) : Prop :=
  exists path, imp !! path = Some alias.

(** The paths for which [Add] allocates nothing. *)
Definition noAlias (path : string) : Prop :=
  path = "" \/ path = "." \/ path = "/".

(** [n] letters 'x'. *)
Fixpoint xs (n : nat) : string :=
  match n with
  | O => EmptyString
  | S k => "x" +:+ xs k
  end.

(** A rune that has a UTF-8 encoding: a code point that is not a surrogate. *)
Definition valid_rune (r : rune) : Prop :=
  (0 <= r <= utf8.MaxRune)%Z /\ ~ (0xD800 <= r <= 0xDFFF)%Z.

(** The first [n] bytes of [t] are there and none of them is ASCII. *)
Fixpoint high_prefix (n : nat) (t : string) : Prop :=
  match n with
  | O => True
  | S k =>
    match t with
    | EmptyString => False
    | String c t' => (0x80 <= byte_val c)%Z /\ high_prefix k t'
    end
  end.

(** The bytes an alias is made of: ASCII digits, ASCII letters and the
    underscore; and the ASCII letters among them. *)
Definition identByte (c : ascii) : bool :=
  negb (invalidIdentifierChar (byte_val c)).

Definition letterByte (c : ascii) : bool :=
  unicode.asciiUpper (byte_val c) || unicode.asciiLower (byte_val c).

(** The bytes of [s] that satisfy [f], in order. *)
Fixpoint filter_bytes (f : ascii -> bool) (s : string) : string :=
  match s with
  | EmptyString => EmptyString
  | String c t =>
    if f c then String c (filter_bytes f t) else filter_bytes f t
  end.

(** Every byte of [s] satisfies [f]. *)
Fixpoint all_bytes (f : ascii -> bool) (s : string) : bool :=
  match s with
  | EmptyString => true
  | String c t => f c && all_bytes f t
  end.

(** A bare identifier in ASCII: a letter, then letters, digits and
    underscores. *)
Definition isIdentifier (s : string) : bool :=
  match s with
  | EmptyString => false
  | String c t => letterByte c && all_bytes identByte t
  end.

(** The length of the longest alias in use. *)
Definition longest (imp : Imports) : nat :=
  max_list (String.length <$> (map_to_list imp).*2).

(** Every alias in the table is an identifier and no keyword. *)
Definition aliasesOK (imp : Imports) : Prop :=
  forall path a, imp !! path = Some a ->
    isIdentifier a = true /\ isKeyword a = false.

(** No two paths of the table have the same alias. *)
Definition aliasesUnique (imp : Imports) : Prop :=
  forall p1 p2 a, imp !! p1 = Some a -> imp !! p2 = Some a -> p1 = p2.

(** Every alias in the table is some letters 'x' followed by the bytes of an
    alias found in the last elements of its path. *)
Definition aliasesShaped (imp : Imports) : Prop :=
  forall path a, imp !! path = Some a ->
    exists n j,
      a = xs n +:+ filter_bytes identByte
                     (strings.Join (drop j (strings.Split path "/"%char)) "").

(** A byte that is not ASCII. *)
Definition highByte (c : ascii) : bool := (0x80 <=? byte_val c)%Z.

(** The runes [rs] written one after the other, as [WriteRune] does. *)
Definition encode_all (rs : list rune) : string :=
  fold_right (fun r acc => utf8.EncodeRune r +:+ acc) "" rs.

(** What the properties of the words need of the tables above ASCII, and
    what Unicode grants: the lowercase form of a rune is a rune that has an
    encoding, and no white space is a letter or a number. *)
Class TablesOK (U : unicode.Tables) : Prop := {
  toLower_valid : forall r, valid_rune r -> valid_rune (unicode.tabToLower r);
  space_no_word : forall r, unicode.tabSpace r = true ->
    unicode.tabLetter r = false /\ unicode.tabNumber r = false
}.

(** A rune of a word, for the runes [inp] read: a letter or a number that
    was read and is not in upper or title case, or the lowercase form of a
    rune in upper or title case that was read. *)
Definition wordRune {U : unicode.Tables} (inp : list rune) (r : rune) : Prop :=
  isLower r = true
  /\ ((r ∈ inp /\ isUpper r = false)
      \/ exists r0, r0 ∈ inp /\ isUpper r0 = true /\ r = unicode.ToLower r0).

(** The invariant of the loop of [parse]: the current word and the words
    read so far are made of runes of words, and no word read is empty. *)
Definition wordOf {U : unicode.Tables} (inp : list rune) (w : string) : Prop :=
  exists rs, w = encode_all rs
             /\ Forall (fun r => valid_rune r /\ wordRune inp r) rs.

Definition parserOK {U : unicode.Tables} (inp : list rune) (p : parser)
    : Prop :=
  wordOf inp (word p)
  /\ Forall (fun w => w <> "" /\ wordOf inp w) (words p).

(** ASCII bytes; and the small ASCII letters and the ASCII digits. *)
Definition asciiByte (c : ascii) : bool := (byte_val c <? 0x80)%Z.

Definition lowerAlnumByte (c : ascii) : bool :=
  unicode.asciiLower (byte_val c) || unicode.asciiDigit (byte_val c).

(** No rune of the word is in upper or title case. *)
Definition noUpper {U : unicode.Tables} (w : string) : bool :=
  forallb (fun r => negb (isUpper r)) (utf8.runes w).

(** The tables of the examples. *)
Definition table1 : Imports := {[ "encoding/json" := "json" ]}.

Definition table2 : Imports := <[ "json" := "xjson" ]> table1.

Definition table3 : Imports := <[ "a/json" := "ajson" ]> table2.

(** The [k]-th alias that [Add] tries for a path with the elements [elems],
    [k] counted from 1: the last [k] elements, then the whole path with one
    more letter 'x' in front at each turn. *)
Definition candidate (elems : list string) (k : nat) : string :=
  if k <=? length elems then newAlias (drop (length elems - k) elems)
  else xs (k - length elems) +:+ newAlias elems.

(** No byte of [s] is [sep]. *)
Definition noByte (sep : ascii) (s : string) : bool :=
  all_bytes (fun c => negb (Ascii.eqb c sep)) s.

(** The rune makes [parse] write to the current word: it is a letter or a
    number, after it was lowered when in upper or title case. *)
Definition writes {U : unicode.Tables} (r : rune) : bool :=
  isLower (if isUpper r then unicode.ToLower r else r).

(** The parser has read a rune of a word. *)
Definition started (p : parser) : Prop :=
  word p <> "" \/ words p <> [].

(** The rune that [EncodeRune] writes for [r]: [r], or [RuneError] when [r]
    has no encoding. *)
Definition sanitize (r : rune) : rune :=
  if (r <? 0)%Z || (utf8.MaxRune <? r)%Z
     || ((0xD800 <=? r)%Z && (r <=? 0xDFFF)%Z)
  then utf8.RuneError else r.

(** The string is the encoding of runes: it is valid UTF-8. *)
Definition encoded (s : string) : Prop :=
  exists rs, s = encode_all rs /\ Forall valid_rune rs.

(** ASCII white space: tab, line feed, vertical tab, form feed, carriage
    return and space. *)
Definition spaceByte (c : ascii) : bool :=
  ((9 <=? byte_val c)%Z && (byte_val c <=? 13)%Z) || (byte_val c =? 32)%Z.

(** The ASCII letters and digits of [s], in order, the capital letters made
    small. *)
Fixpoint lowerAlnumOf (s : string) : string :=
  match s with
  | EmptyString => EmptyString
  | String c t =>
    if unicode.asciiUpper (byte_val c)
    then String (byte_of (byte_val c + 32)) (lowerAlnumOf t)
    else if lowerAlnumByte c then String c (lowerAlnumOf t)
    else lowerAlnumOf t
  end.

(** A word of small ASCII letters and ASCII digits, not empty; and one that
    starts with a letter. *)
Definition lowerWord (w : string) : bool :=
  negb (String.eqb w "") && all_bytes lowerAlnumByte w.

Definition startsLetter (w : string) : bool :=
  match w with
  | EmptyString => false
  | String c _ => unicode.asciiLower (byte_val c)
  end.

(** The bytes the parser holds: the words read, then the current word. *)
Definition flatten (p : parser) : string :=
  strings.Join (words p) "" +:+ word p.

(** An ASCII letter or digit. *)
Definition alnumByte (c : ascii) : bool :=
  unicode.asciiUpper (byte_val c) || lowerAlnumByte c.

(** ** Tactics *)

(** Boolean tests on [Z] in the hypotheses, as propositions. *)
Ltac zbool :=
  repeat match goal with
  | H : (_ || _) = true |- _ => apply orb_true_iff in H; destruct H as [H|H]
  | H : (_ || _) = false |- _ => apply orb_false_iff in H; destruct H as [? ?]
  | H : (_ && _) = true |- _ => apply andb_true_iff in H; destruct H as [? ?]
  | H : (_ && _) = false |- _ => apply andb_false_iff in H; destruct H as [H|H]
  | H : negb _ = true |- _ => apply negb_true_iff in H
  | H : negb _ = false |- _ => apply negb_false_iff in H
  | H : (_ <? _)%Z = true |- _ => apply Z.ltb_lt in H
  | H : (_ <? _)%Z = false |- _ => apply Z.ltb_ge in H
  | H : (_ <=? _)%Z = true |- _ => apply Z.leb_le in H
  | H : (_ <=? _)%Z = false |- _ => apply Z.leb_gt in H
  | H : (_ =? _)%Z = true |- _ => apply Z.eqb_eq in H
  | H : (_ =? _)%Z = false |- _ => apply Z.eqb_neq in H
  end.

(** Linear arithmetic with division and remainder by constants. *)
Ltac zdm := Z.div_mod_to_equations; lia.

(** * Properties *)

(** ** Bytes *)

Lemma byte_val_range (c : ascii) : (0 <= byte_val c < 256)%Z.
Proof.
  unfold byte_val. pose proof (N_ascii_bounded c). lia.
Qed.

Lemma byte_of_val (c : ascii) : byte_of (byte_val c) = c.
Proof.
  unfold byte_of, byte_val. rewrite N2Z.id. apply ascii_N_embedding.
Qed.

Lemma byte_val_of (z : Z) : (0 <= z < 256)%Z -> byte_val (byte_of z) = z.
Proof.
  intros Hz. unfold byte_of, byte_val.
  rewrite N_ascii_embedding by lia. lia.
Qed.

(** The range of every byte in the context. *)
Ltac byte_ranges :=
  repeat match goal with
  | c : ascii |- _ =>
    lazymatch goal with
    | H : (0 <= byte_val c < 256)%Z |- _ => fail
    | _ => pose proof (byte_val_range c)
    end
  end.

(** ** Strings *)

Lemma app_String (c : ascii) (s t : string) :
  String c s +:+ t = String c (s +:+ t).
Proof. reflexivity. Qed.

Lemma app_Empty (t : string) : "" +:+ t = t.
Proof. reflexivity. Qed.

Lemma app_Empty_r (s : string) : s +:+ "" = s.
Proof.
  induction s as [|c s IH]; [reflexivity|]. by rewrite app_String, IH.
Qed.

Lemma app_assoc_s (s t u : string) : (s +:+ t) +:+ u = s +:+ t +:+ u.
Proof.
  induction s as [|c s IH]; [reflexivity|]. by rewrite !app_String, IH.
Qed.

(** ** UTF-8 *)

(** The decoder on a string that is not empty: the rune has an encoding, the
    width is 1 to 4, an ASCII byte is its own rune, and a rune that starts
    with another byte is not ASCII and is followed by bytes that are not
    ASCII either. *)
Lemma decode_spec (c : ascii) (t : string) :
  let '(r, w) := utf8.DecodeRuneInString (String c t) in
  valid_rune r /\ 1 <= w <= 4 /\
  (((byte_val c < 0x80)%Z /\ r = byte_val c /\ w = 1)
   \/ ((0x80 <= byte_val c)%Z /\ (0x80 <= r)%Z /\ high_prefix (w - 1) t)).
Proof.
  unfold utf8.DecodeRuneInString, utf8.first, utf8.cont, valid_rune,
    utf8.RuneError, utf8.RuneSelf, utf8.MaxRune, utf8.locb, utf8.hicb.
  repeat case_match; simplify_eq; zbool; cbn [high_prefix Nat.sub];
    byte_ranges.
  all: split; [zdm|]; split; [lia|];
    first [ left; lia | right; repeat split; zdm ].
Qed.

Lemma encode_length (r : rune) : 1 <= String.length (utf8.EncodeRune r) <= 4.
Proof.
  unfold utf8.EncodeRune. repeat case_match; cbn; lia.
Qed.

(** Decoding what was encoded gives the rune back. *)
Lemma decode_encode (r : rune) (t : string) :
  valid_rune r ->
  utf8.DecodeRuneInString (utf8.EncodeRune r +:+ t)
  = (r, String.length (utf8.EncodeRune r)).
Proof.
  unfold valid_rune, utf8.MaxRune. intros [Hr Hs].
  unfold utf8.EncodeRune, utf8.MaxRune.
  repeat case_match; zbool; try lia;
    rewrite ?app_String, ?app_Empty;
    cbn [String.length utf8.DecodeRuneInString];
    rewrite ?byte_val_of by zdm;
    unfold utf8.first, utf8.cont, utf8.RuneSelf, utf8.locb, utf8.hicb.
  all: repeat case_match; simplify_eq; zbool;
    try (exfalso; zdm); try (f_equal; zdm).
Qed.

(** ** The regular expression *)

Lemma identByte_ascii (c : ascii) :
  identByte c = true -> (byte_val c < 0x80)%Z.
Proof.
  unfold identByte, invalidIdentifierChar, unicode.asciiDigit,
    unicode.asciiUpper, unicode.asciiLower.
  intros H. zbool; lia.
Qed.

Lemma invalid_high (r : rune) :
  (0x80 <= r)%Z -> invalidIdentifierChar r = true.
Proof.
  intros Hr. unfold invalidIdentifierChar, unicode.asciiDigit,
    unicode.asciiUpper, unicode.asciiLower.
  apply negb_true_iff. repeat (apply orb_false_iff; split);
    first [ apply andb_false_iff; first [ left; apply Z.leb_gt; lia
                                        | right; apply Z.leb_gt; lia ]
          | apply Z.eqb_neq; lia ].
Qed.

Lemma removeInvalid_from_filter (s : string) :
  forall skip keep,
    skip = 0 \/ (keep = false /\ high_prefix skip s) ->
    removeInvalid_from skip keep s = filter_bytes identByte s.
Proof.
  induction s as [|c t IH]; intros skip keep Hskip; [reflexivity|].
  cbn [removeInvalid_from filter_bytes].
  destruct skip as [|k].
  - pose proof (decode_spec c t) as Hd.
    destruct (utf8.DecodeRuneInString (String c t)) as [r w].
    destruct Hd as (_ & Hw & [(Hc & -> & ->) | (Hc & Hr & Hp)]).
    + unfold identByte.
      destruct (invalidIdentifierChar (byte_val c)); cbn [negb Nat.sub];
        rewrite IH by (by left); reflexivity.
    + rewrite invalid_high by done.
      destruct (identByte c) eqn:Hi.
      { apply identByte_ascii in Hi. lia. }
      apply IH. destruct (w - 1); [by left | by right].
  - destruct Hskip as [|[-> [Hc Hp]]]; [done|].
    destruct (identByte c) eqn:Hi.
    { apply identByte_ascii in Hi. lia. }
    apply IH. destruct k; [by left | by right].
Qed.

(** Removing the invalid characters keeps exactly the bytes of an alias. *)
Lemma removeInvalid_filter (s : string) :
  removeInvalid s = filter_bytes identByte s.
Proof. apply removeInvalid_from_filter. by left. Qed.

Lemma filter_bytes_all (f : ascii -> bool) (s : string) :
  all_bytes f (filter_bytes f s) = true.
Proof.
  induction s as [|c t IH]; [reflexivity|]. cbn [filter_bytes].
  destruct (f c) eqn:Hf; [|done]. cbn [all_bytes]. by rewrite Hf, IH.
Qed.

Lemma filter_bytes_app (f : ascii -> bool) (s t : string) :
  filter_bytes f (s +:+ t) = filter_bytes f s +:+ filter_bytes f t.
Proof.
  induction s as [|c s IH]; [reflexivity|].
  rewrite app_String. cbn [filter_bytes].
  destruct (f c); [rewrite app_String|]; by rewrite IH.
Qed.

Lemma filter_bytes_none (f : ascii -> bool) (s : string) :
  all_bytes (fun c => negb (f c)) s = true -> filter_bytes f s = "".
Proof.
  induction s as [|c s IH]; [reflexivity|]. cbn [all_bytes filter_bytes].
  intros [Hc Hs]%andb_true_iff. apply negb_true_iff in Hc. rewrite Hc. auto.
Qed.

Lemma all_bytes_app (f : ascii -> bool) (s t : string) :
  all_bytes f (s +:+ t) = all_bytes f s && all_bytes f t.
Proof.
  induction s as [|c s IH]; [reflexivity|].
  rewrite app_String. cbn [all_bytes]. by rewrite IH, andb_assoc.
Qed.

(** ** The alias table *)

Section ImportsFacts.
Context {U : unicode.Tables}.

Lemma unused_forallb (imp : Imports) (alias : string) :
  forallb (fun kv => negb (String.eqb kv.2 alias)) (map_to_list imp) = true
  <-> ~ usedAlias imp alias.
Proof.
  rewrite forallb_forall. split.
  - intros H [path Hp].
    apply elem_of_map_to_list, list_elem_of_In in Hp.
    specialize (H _ Hp). simpl in H.
    rewrite String.eqb_refl in H. discriminate.
  - intros H [k v] Hin. simpl.
    apply list_elem_of_In, elem_of_map_to_list in Hin.
    destruct (String.eqb_spec v alias) as [->|]; [|done].
    exfalso. apply H. by exists k.
Qed.

(** What [isValid] decides. *)
Lemma isValid_true (imp : Imports) (alias : string) :
  isValid imp alias = true <->
  alias <> EmptyString /\ isKeyword alias = false
  /\ (forall r rest, utf8.runes alias = r :: rest -> unicode.IsLetter r = true)
  /\ ~ usedAlias imp alias.
Proof.
  unfold isValid.
  destruct alias as [|c t] eqn:Ha.
  { cbn [String.length Nat.eqb orb]. split; [discriminate | intros [? _]; done]. }
  rewrite <- Ha. replace (String.length alias =? 0) with false
    by (rewrite Ha; reflexivity).
  cbn [orb]. destruct (isKeyword alias).
  { split; [discriminate | intros (_ & ? & _); discriminate]. }
  destruct (utf8.runes alias) as [|r rest].
  - rewrite unused_forallb. split.
    + intros H. repeat split; [subst; discriminate | discriminate | done].
    + tauto.
  - destruct (unicode.IsLetter r) eqn:Hr; cbn [negb].
    + rewrite unused_forallb. split.
      * intros H. repeat split; [subst; discriminate | | done].
        intros ? ? [= <- <-]. done.
      * tauto.
    + split; [discriminate |].
      intros (_ & _ & H & _). specialize (H _ _ eq_refl). congruence.
Qed.

Lemma noAlias_test (path : string) :
  String.eqb path "" || String.eqb path "." || String.eqb path "/" = true
  <-> noAlias path.
Proof.
  unfold noAlias. rewrite !orb_true_iff, !String.eqb_eq. tauto.
Qed.

Lemma xs_shift (n : nat) (s : string) : xs n +:+ "x" +:+ s = xs (S n) +:+ s.
Proof.
  induction n as [|n IH]; [reflexivity|].
  change (String "x" (xs n +:+ "x" +:+ s) = String "x" (xs (S n) +:+ s)).
  by rewrite IH.
Qed.

Lemma suffixLoop_valid imp elems n i init a :
  suffixLoop imp elems n i init = (a, true) -> isValid imp a = true.
Proof.
  revert i init. induction n as [|n IH]; intros i init; cbn [suffixLoop].
  - discriminate.
  - destruct (isValid imp (newAlias _)) eqn:Hv.
    + by intros [= <-].
    + apply IH.
Qed.

Lemma suffixLoop_alias imp elems n i init a b :
  suffixLoop imp elems n i init = (a, b) ->
  a = init \/ exists j, a = newAlias (drop j elems).
Proof.
  revert i init. induction n as [|n IH]; intros i init; cbn [suffixLoop].
  - intros [= <- <-]. by left.
  - destruct (isValid imp (newAlias _)) eqn:Hv.
    + intros [= <- <-]. right. eauto.
    + intros H. apply IH in H as [->|?]; [right; eauto | by right].
Qed.

Lemma prependX_valid fuel imp alias a :
  prependX fuel imp alias = Some a ->
  isValid imp a = true /\ exists n, a = xs n +:+ alias.
Proof.
  revert alias. induction fuel as [|fuel IH]; intros alias; cbn [prependX];
    destruct (isValid imp alias) eqn:Hv.
  - intros [= <-]. split; [done | by exists 0].
  - discriminate.
  - intros [= <-]. split; [done | by exists 0].
  - intros H. apply IH in H as [H1 [n ->]]. split; [done|].
    exists (S n). apply xs_shift.
Qed.

(** The three ways a call of [Add] ends. *)
Lemma Add_cases fuel imp path a imp' :
  Add fuel imp path = Some (a, imp') ->
  (noAlias path /\ a = "" /\ imp' = imp)
  \/ (~ noAlias path /\ imp !! path = Some a /\ imp' = imp)
  \/ (~ noAlias path /\ imp !! path = None /\ isValid imp a = true
      /\ imp' = <[path := a]> imp).
Proof.
  unfold Add.
  destruct (String.eqb path "" || String.eqb path "." || String.eqb path "/")
    eqn:Hs.
  { apply noAlias_test in Hs. intros [= <- <-]. by left. }
  assert (~ noAlias path) as Hn.
  { rewrite <- noAlias_test, Hs. discriminate. }
  destruct (imp !! path) as [alias|] eqn:Hl.
  { intros [= <- <-]. right; left. done. }
  destruct (suffixLoop _ _ _ _ _) as [alias [|]] eqn:Hloop.
  - intros [= <- <-]. right; right.
    apply suffixLoop_valid in Hloop. done.
  - destruct (prependX fuel imp alias) as [alias'|] eqn:Hx; [|discriminate].
    intros [= <- <-]. right; right.
    apply prependX_valid in Hx as [Hx _]. done.
Qed.

(** *** The frame of [Add] *)

Lemma Add_lookup_mono fuel imp path a imp' k v :
  Add fuel imp path = Some (a, imp') ->
  imp !! k = Some v -> imp' !! k = Some v.
Proof.
  intros HA Hk.
  apply Add_cases in HA
    as [(_ & _ & ->) | [(_ & _ & ->) | (_ & Hnone & _ & ->)]]; try done.
  rewrite lookup_insert_ne; [done | congruence].
Qed.

Lemma Add_result fuel imp path a imp' :
  Add fuel imp path = Some (a, imp') ->
  (noAlias path /\ a = "") \/ (~ noAlias path /\ imp' !! path = Some a).
Proof.
  intros HA.
  apply Add_cases in HA
    as [(? & ? & ->) | [(? & ? & ->) | (? & _ & _ & ->)]].
  - by left.
  - by right.
  - right. split; [done|]. apply lookup_insert_eq.
Qed.

Lemma AddAll_lookup_mono fuel paths : forall imp aliases imp' k v,
  AddAll fuel imp paths = Some (aliases, imp') ->
  imp !! k = Some v -> imp' !! k = Some v.
Proof.
  induction paths as [|path rest IH]; intros imp aliases imp' k v;
    cbn [AddAll].
  - by intros [= <- <-].
  - destruct (Add fuel imp path) as [[a imp1]|] eqn:HA; [|discriminate].
    destruct (AddAll fuel imp1 rest) as [[al imp2]|] eqn:HR; [|discriminate].
    intros [= <- <-] Hk. eapply IH; [done|]. by eapply Add_lookup_mono.
Qed.

(** Whatever [Add] keeps invariant, a sequence of calls keeps invariant. *)
Lemma AddAll_invariant (I : Imports -> Prop) fuel :
  (forall imp path a imp',
     I imp -> Add fuel imp path = Some (a, imp') -> I imp') ->
  forall paths imp aliases imp',
    I imp -> AddAll fuel imp paths = Some (aliases, imp') -> I imp'.
Proof.
  intros Hstep. induction paths as [|path rest IH];
    intros imp aliases imp' HI; cbn [AddAll].
  - by intros [= <- <-].
  - destruct (Add fuel imp path) as [[a imp1]|] eqn:HA; [|discriminate].
    destruct (AddAll fuel imp1 rest) as [[al imp2]|] eqn:HR; [|discriminate].
    intros [= <- <-]. eapply IH; [|done]. by eapply Hstep.
Qed.

(** The alias returned by the [i]-th call of a sequence is empty, for a path
    without alias, or is the alias of the path in the final table. *)
Lemma AddAll_result fuel paths : forall imp aliases imp' i path a,
  AddAll fuel imp paths = Some (aliases, imp') ->
  paths !! i = Some path -> aliases !! i = Some a ->
  (noAlias path /\ a = "") \/ imp' !! path = Some a.
Proof.
  induction paths as [|p rest IH]; intros imp aliases imp' i path a;
    cbn [AddAll].
  - intros _ Hp. by rewrite lookup_nil in Hp.
  - destruct (Add fuel imp p) as [[a1 imp1]|] eqn:HA; [|discriminate].
    destruct (AddAll fuel imp1 rest) as [[al imp2]|] eqn:HR; [|discriminate].
    intros [= <- <-]. destruct i as [|i]; cbn.
    + intros [= <-] [= <-]. apply Add_result in HA as [?|[_ HA]]; [by left|].
      right. by eapply AddAll_lookup_mono.
    + intros Hp Ha. by eapply IH.
Qed.

Lemma AddAll_length fuel paths : forall imp aliases imp',
  AddAll fuel imp paths = Some (aliases, imp') ->
  length aliases = length paths.
Proof.
  induction paths as [|p rest IH]; intros imp aliases imp'; cbn [AddAll].
  - by intros [= <- <-].
  - destruct (Add fuel imp p) as [[a1 imp1]|] eqn:HA; [|discriminate].
    destruct (AddAll fuel imp1 rest) as [[al imp2]|] eqn:HR; [|discriminate].
    intros [= <- <-]. cbn. f_equal. by eapply IH.
Qed.

(** *** Uniqueness *)

Lemma Add_unique fuel imp path a imp' :
  aliasesUnique imp -> Add fuel imp path = Some (a, imp') ->
  aliasesUnique imp'.
Proof.
  intros HU HA.
  apply Add_cases in HA
    as [(_ & _ & ->) | [(_ & _ & ->) | (_ & Hnone & Hv & ->)]]; try done.
  apply isValid_true in Hv as (_ & _ & _ & Hfree).
  intros p1 p2 b. rewrite !lookup_insert.
  repeat case_decide; simplify_eq; try done.
  - intros [= <-] Hp2. exfalso. apply Hfree. by exists p2.
  - intros Hp1 [= <-]. exfalso. apply Hfree. by exists p1.
  - apply HU.
Qed.

(** C1: after any sequence of calls of [Add] on an empty table, no two
    paths of the table have the same alias, and the aliases returned for two
    different paths differ unless they are empty.  The reason is an
    invariant: a call of [Add] on a table without a repeated alias leaves a
    table without a repeated alias. *)
Theorem Add_aliases_unique fuel (paths aliases : list string) (imp : Imports) :
  AddAll fuel ∅ paths = Some (aliases, imp) ->
  aliasesUnique imp
  /\ (forall i j p1 p2 a1 a2,
       paths !! i = Some p1 -> paths !! j = Some p2 ->
       aliases !! i = Some a1 -> aliases !! j = Some a2 ->
       p1 <> p2 -> a1 <> "" -> a1 <> a2)
  /\ (forall imp0 path0 a0 imp1,
       aliasesUnique imp0 -> Add fuel imp0 path0 = Some (a0, imp1) ->
       aliasesUnique imp1).
Proof.
  intros HA.
  assert (aliasesUnique imp) as HU.
  { eapply (AddAll_invariant aliasesUnique); [| |exact HA].
    - intros ? ? ? ? ?. by apply Add_unique.
    - intros p1 p2 a. by rewrite lookup_empty. }
  split; [done|]. split; [|intros ? ? ? ? ? ?; by eapply Add_unique].
  intros i j p1 p2 a1 a2 Hp1 Hp2 Ha1 Ha2 Hne Hnz ->.
  destruct (AddAll_result _ _ _ _ _ _ _ _ HA Hp1 Ha1) as [[_ ?]|H1]; [done|].
  destruct (AddAll_result _ _ _ _ _ _ _ _ HA Hp2 Ha2) as [[_ ?]|H2]; [done|].
  apply Hne. by eapply HU.
Qed.

(** C9: a call of [Add] keeps every binding of the table as it was, and
    adds at most one, for the path of the call. *)
Theorem Add_frame fuel (imp : Imports) (path a : string) (imp' : Imports) :
  Add fuel imp path = Some (a, imp') ->
  (forall k v, imp !! k = Some v -> imp' !! k = Some v)
  /\ (forall k, k <> path -> imp' !! k = imp !! k)
  /\ size imp <= size imp' <= S (size imp).
Proof.
  intros HA. split; [|split].
  - intros k v. by eapply Add_lookup_mono.
  - intros k Hk.
    apply Add_cases in HA
      as [(_ & _ & ->) | [(_ & _ & ->) | (_ & _ & _ & ->)]]; try done.
    by rewrite lookup_insert_ne.
  - apply Add_cases in HA
      as [(_ & _ & ->) | [(_ & _ & ->) | (_ & Hnone & _ & ->)]]; try lia.
    rewrite map_size_insert_None by done. lia.
Qed.

(** C4: once [Add] has returned an alias for a path, every later call for
    that path, whatever calls of [Add] come in between, returns the same
    alias and leaves the table, and so its number of entries, as it was. *)
Theorem Add_idempotent fuel fuel' fuel'' (imp : Imports) (path a : string)
    (imp1 : Imports) (others aliases : list string) (imp2 : Imports) :
  Add fuel imp path = Some (a, imp1) ->
  AddAll fuel' imp1 others = Some (aliases, imp2) ->
  Add fuel'' imp2 path = Some (a, imp2)
  /\ Add fuel'' imp1 path = Some (a, imp1).
Proof.
  intros HA HO.
  assert (forall imp3, (forall k v, imp1 !! k = Some v -> imp3 !! k = Some v)
            -> Add fuel'' imp3 path = Some (a, imp3)) as Hagain.
  { intros imp3 Hmono. unfold Add.
    apply Add_result in HA as [[Hs ->]|[Hs Hl]].
    - apply noAlias_test in Hs. by rewrite Hs.
    - rewrite <- noAlias_test in Hs. apply not_true_is_false in Hs.
      by rewrite Hs, (Hmono _ _ Hl). }
  split; apply Hagain; [|done].
  intros k v. by eapply AddAll_lookup_mono.
Qed.

(** C5: for the paths "", "." and "/" [Add] returns the empty string and
    leaves the table as it was. *)
Theorem Add_no_alias fuel (imp : Imports) :
  Add fuel imp "" = Some ("", imp)
  /\ Add fuel imp "." = Some ("", imp)
  /\ Add fuel imp "/" = Some ("", imp).
Proof. repeat split. Qed.

(** *** Termination *)

Lemma used_length (imp : Imports) (a : string) :
  usedAlias imp a -> String.length a <= longest imp.
Proof.
  intros [path Hp]. unfold longest. apply max_list_elem_of_le.
  apply list_elem_of_fmap_2.
  apply elem_of_map_to_list in Hp.
  by apply (list_elem_of_fmap_2 snd) in Hp.
Qed.

Lemma isKeyword_x (s : string) : isKeyword (String "x" s) = false.
Proof.
  unfold isKeyword, _keywords. apply bool_decide_eq_false.
  rewrite !elem_of_union, !elem_of_singleton. intros H.
  repeat (destruct H as [H|H]; [try discriminate H|]); discriminate H.
Qed.

Lemma runes_ascii (c : ascii) (t : string) :
  (byte_val c < 0x80)%Z -> utf8.runes (String c t) = byte_val c :: utf8.runes t.
Proof.
  intros Hc. unfold utf8.runes. cbn [utf8.runes_from].
  cbn [utf8.DecodeRuneInString]. unfold utf8.RuneSelf.
  by rewrite (proj2 (Z.ltb_lt _ _) Hc).
Qed.

(** An alias that starts with 'x' is valid as soon as it is not in use. *)
Lemma isValid_x (imp : Imports) (s : string) :
  ~ usedAlias imp (String "x" s) -> isValid imp (String "x" s) = true.
Proof.
  intros Hfree. apply isValid_true.
  split; [done|]. split; [apply isKeyword_x|]. split; [|done].
  rewrite runes_ascii by (vm_compute; done). by intros ? ? [= <- _].
Qed.

Lemma prependX_enough (imp : Imports) (d : nat) : forall s k,
  longest imp < d + String.length (String "x" s) ->
  exists a, prependX (d + k) imp (String "x" s) = Some a
            /\ isValid imp a = true.
Proof.
  induction d as [|d IH]; intros s k Hlen.
  - assert (isValid imp (String "x" s) = true) as Hv.
    { apply isValid_x. intros Hu%used_length. lia. }
    exists (String "x" s). split; [|done].
    destruct k; cbn [Nat.add prependX]; by rewrite Hv.
  - cbn [Nat.add prependX].
    destruct (isValid imp (String "x" s)) eqn:Hv; [by eauto|].
    apply IH. cbn [String.length] in *. lia.
Qed.

Lemma prependX_total (imp : Imports) (alias : string) (k : nat) :
  exists a, prependX (S (longest imp) + k) imp alias = Some a
            /\ isValid imp a = true.
Proof.
  cbn [Nat.add prependX]. destruct (isValid imp alias) eqn:Hv; [by eauto|].
  apply prependX_enough. cbn [String.length]. lia.
Qed.

Lemma prependX_fuel_mono (imp : Imports) (fuel k : nat) : forall alias a,
  prependX fuel imp alias = Some a -> prependX (fuel + k) imp alias = Some a.
Proof.
  induction fuel as [|fuel IH]; intros alias a; cbn [Nat.add prependX].
  - destruct (isValid imp alias) eqn:Hv; [|discriminate].
    intros [= <-]. destruct k; cbn [prependX]; by rewrite Hv.
  - destruct (isValid imp alias); [done | apply IH].
Qed.

Lemma Add_fuel_mono (imp : Imports) (fuel k : nat) (path : string) r :
  Add fuel imp path = Some r -> Add (fuel + k) imp path = Some r.
Proof.
  unfold Add. destruct (_ || _); [done|].
  destruct (imp !! path); [done|].
  destruct (suffixLoop _ _ _ _ _) as [alias [|]]; [done|].
  destruct (prependX fuel imp alias) as [a|] eqn:Hx; [|discriminate].
  by rewrite (prependX_fuel_mono _ _ k _ _ Hx).
Qed.

(** C3: with fuel for one turn more than the longest alias in use has
    bytes, the loop that prepends 'x' ends, with a valid alias that is not in
    use, and so does [Add], which binds the path to the alias it returns
    unless the path has no alias; more fuel does not change what [Add]
    returns. *)
Theorem Add_terminates (imp : Imports) :
  (forall alias k, exists a,
      prependX (S (longest imp) + k) imp alias = Some a
      /\ isValid imp a = true)
  /\ (forall path k, exists a imp',
      Add (S (longest imp) + k) imp path = Some (a, imp')
      /\ (noAlias path \/ imp' !! path = Some a))
  /\ (forall path fuel k r,
      Add fuel imp path = Some r -> Add (fuel + k) imp path = Some r).
Proof.
  split; [apply prependX_total|]. split; [|intros; by apply Add_fuel_mono].
  intros path k.
  destruct (Add (S (longest imp) + k) imp path) as [[a imp']|] eqn:HA.
  { exists a, imp'. split; [done|].
    apply Add_result in HA as [[? _]|[_ ?]]; auto. }
  exfalso. revert HA. unfold Add.
  destruct (_ || _); [discriminate|].
  destruct (imp !! path); [discriminate|].
  destruct (suffixLoop _ _ _ _ _) as [alias [|]]; [discriminate|].
  destruct (prependX_total imp alias k) as (a & -> & _). discriminate.
Qed.

(** *** The shape of an alias *)

Lemma newAlias_bytes (elems : list string) :
  all_bytes identByte (newAlias elems) = true.
Proof.
  unfold newAlias. rewrite removeInvalid_filter. apply filter_bytes_all.
Qed.

Lemma xs_bytes (n : nat) : all_bytes identByte (xs n) = true.
Proof. induction n as [|n IH]; [reflexivity | exact IH]. Qed.

(** The alias of a path that [Add] binds is made of some letters 'x' and the
    alias of the last elements of the path. *)
Lemma Add_new_shape fuel imp path a imp' :
  Add fuel imp path = Some (a, imp') ->
  ~ noAlias path -> imp !! path = None ->
  exists n j, a = xs n +:+ newAlias (drop j (strings.Split path "/"%char)).
Proof.
  intros HA Hn Hl. revert HA. unfold Add.
  rewrite <- noAlias_test in Hn. apply not_true_is_false in Hn.
  rewrite Hn, Hl.
  set (elems := strings.Split path "/"%char).
  assert (forall alias b,
            suffixLoop imp elems (length elems) 1 "" = (alias, b) ->
            exists j, alias = newAlias (drop j elems)) as Hshape.
  { intros alias b [->|?]%suffixLoop_alias; [|done].
    exists (length elems). by rewrite drop_all. }
  destruct (suffixLoop _ _ _ _ _) as [alias [|]] eqn:Hloop;
    destruct (Hshape _ _ eq_refl) as [j ->].
  - intros [= <- _]. by exists 0, j.
  - destruct (prependX _ _ _) as [alias'|] eqn:Hx; [|discriminate].
    intros [= <- _]. apply prependX_valid in Hx as [_ [n ->]]. by exists n, j.
Qed.

Lemma Add_new_bytes fuel imp path a imp' :
  Add fuel imp path = Some (a, imp') ->
  ~ noAlias path -> imp !! path = None ->
  all_bytes identByte a = true.
Proof.
  intros HA Hn Hl.
  destruct (Add_new_shape _ _ _ _ _ HA Hn Hl) as (n & j & ->).
  by rewrite all_bytes_app, xs_bytes, newAlias_bytes.
Qed.

(** A valid alias made of the bytes of an alias is an identifier. *)
Lemma isValid_identifier (imp : Imports) (a : string) :
  isValid imp a = true -> all_bytes identByte a = true ->
  isIdentifier a = true.
Proof.
  intros (Hne & _ & Hfirst & _)%isValid_true Hbytes.
  destruct a as [|c t]; [done|]. cbn [all_bytes] in Hbytes.
  apply andb_true_iff in Hbytes as [Hc Ht].
  cbn [isIdentifier]. rewrite Ht, andb_true_r.
  pose proof (identByte_ascii _ Hc) as Hlow.
  pose proof (byte_val_range c) as Hrange.
  rewrite runes_ascii in Hfirst by done.
  specialize (Hfirst _ _ eq_refl). revert Hfirst.
  unfold unicode.IsLetter, unicode.isASCII, unicode.MaxASCII, letterByte.
  replace (0 <=? byte_val c)%Z with true by (symmetry; apply Z.leb_le; lia).
  replace (byte_val c <=? 127)%Z with true by (symmetry; apply Z.leb_le; lia).
  done.
Qed.

Lemma Add_aliasesOK fuel imp path a imp' :
  aliasesOK imp -> Add fuel imp path = Some (a, imp') -> aliasesOK imp'.
Proof.
  intros HI HA.
  destruct (Add_cases _ _ _ _ _ HA)
    as [(_ & _ & ->) | [(_ & _ & ->) | (Hn & Hnone & Hv & ->)]]; try done.
  intros k b. rewrite lookup_insert. case_decide; [|by apply HI].
  intros [= <-]. split.
  - apply (isValid_identifier imp); [done|]. by eapply Add_new_bytes.
  - by apply isValid_true in Hv as (_ & ? & _).
Qed.

Lemma Add_valid_alias fuel imp path a imp' :
  aliasesOK imp -> Add fuel imp path = Some (a, imp') -> a <> "" ->
  isIdentifier a = true /\ isKeyword a = false.
Proof.
  intros HI HA Hne.
  pose proof (Add_aliasesOK _ _ _ _ _ HI HA) as HI'.
  apply Add_result in HA as [[_ ?]|[_ Hl]]; [done|]. by eapply HI'.
Qed.

(** C2: every alias returned in a sequence of calls of [Add] on an empty
    table is empty or is an identifier (an ASCII letter, then ASCII letters,
    digits and underscores) that is no keyword.  The reason is an invariant
    of the table: when every alias in it is such an identifier, a call of
    [Add] returns one, or the empty string, and leaves a table of the same
    kind. *)
Theorem Add_alias_valid fuel (paths aliases : list string) (imp : Imports)
    (a : string) :
  AddAll fuel ∅ paths = Some (aliases, imp) ->
  a ∈ aliases -> a <> "" ->
  (isIdentifier a = true /\ isKeyword a = false)
  /\ aliasesOK imp
  /\ (forall imp0 path0 a0 imp1,
        aliasesOK imp0 -> Add fuel imp0 path0 = Some (a0, imp1) ->
        aliasesOK imp1
        /\ (a0 <> "" -> isIdentifier a0 = true /\ isKeyword a0 = false)).
Proof.
  intros HA [i Hi]%list_elem_of_lookup Hne.
  assert (aliasesOK imp) as HI.
  { eapply (AddAll_invariant aliasesOK); [| |exact HA].
    - intros ? ? ? ? ?. by apply Add_aliasesOK.
    - intros p b. by rewrite lookup_empty. }
  assert (i < length paths) as [path Hp]%lookup_lt_is_Some.
  { rewrite <- (AddAll_length _ _ _ _ _ HA). by eapply lookup_lt_Some. }
  split; [|split; [done|]].
  - destruct (AddAll_result _ _ _ _ _ _ _ _ HA Hp Hi) as [[_ ?]|Hl]; [done|].
    by eapply HI.
  - intros imp0 path0 a0 imp1 HI0 HA0.
    split; [by eapply Add_aliasesOK | by eapply Add_valid_alias].
Qed.

(** *** Aliases are ASCII *)

Lemma Join_cons_nosep (e : string) (rest : list string) :
  strings.Join (e :: rest) "" = e +:+ strings.Join rest "".
Proof.
  destruct rest as [|e' rest]; cbn [strings.Join].
  - by rewrite app_Empty_r.
  - by rewrite app_Empty.
Qed.

Lemma Join_app_nosep (pre post : list string) :
  strings.Join (pre ++ post) "" = strings.Join pre "" +:+ strings.Join post "".
Proof.
  induction pre as [|e pre IH]; [reflexivity|].
  rewrite <- app_comm_cons, !Join_cons_nosep, IH. by rewrite app_assoc_s.
Qed.

Lemma highByte_not_ident (e : string) :
  all_bytes highByte e = true ->
  all_bytes (fun c => negb (identByte c)) e = true.
Proof.
  induction e as [|c e IH]; [done|]. cbn [all_bytes].
  intros [Hc He]%andb_true_iff. rewrite IH, andb_true_r by done.
  destruct (identByte c) eqn:Hi; [|done].
  apply identByte_ascii in Hi. unfold highByte in Hc.
  apply Z.leb_le in Hc. lia.
Qed.

Lemma newAlias_skip_high (pre post : list string) (e : string) :
  all_bytes highByte e = true ->
  newAlias (pre ++ e :: post) = newAlias (pre ++ post).
Proof.
  intros He. unfold newAlias.
  rewrite !removeInvalid_filter, !Join_app_nosep, Join_cons_nosep.
  rewrite !filter_bytes_app.
  by rewrite (filter_bytes_none identByte e), app_Empty
    by by apply highByte_not_ident.
Qed.

Lemma Add_aliasesShaped fuel imp path a imp' :
  aliasesShaped imp -> Add fuel imp path = Some (a, imp') ->
  aliasesShaped imp'.
Proof.
  intros HI HA.
  destruct (Add_cases _ _ _ _ _ HA)
    as [(_ & _ & ->) | [(_ & _ & ->) | (Hn & Hnone & Hv & ->)]]; try done.
  intros k b. rewrite lookup_insert. case_decide; [|by apply HI].
  intros [= <-]. subst k.
  destruct (Add_new_shape _ _ _ _ _ HA Hn Hnone) as (n & j & ->).
  exists n, j. unfold newAlias. by rewrite removeInvalid_filter.
Qed.

(** C10: an alias returned in a sequence of calls of [Add] on an empty table,
    when not empty, is some letters 'x' followed by the ASCII digits, ASCII
    letters and underscores of the last elements of its path, in order: all
    its bytes are of these; an element of a path without any ASCII byte adds
    nothing to a candidate; and on any table, the alias that [Add] returns
    for a path not yet in the table is made of these bytes. *)
Theorem Add_alias_ascii fuel (paths aliases : list string) (imp : Imports)
    (i : nat) (path a : string) :
  AddAll fuel ∅ paths = Some (aliases, imp) ->
  paths !! i = Some path -> aliases !! i = Some a -> a <> "" ->
  (exists n j,
      a = xs n +:+ filter_bytes identByte
                     (strings.Join (drop j (strings.Split path "/"%char)) ""))
  /\ all_bytes identByte a = true
  /\ (forall pre e post, all_bytes highByte e = true ->
        newAlias (pre ++ e :: post) = newAlias (pre ++ post))
  /\ (forall imp0 path0 a0 imp1,
        Add fuel imp0 path0 = Some (a0, imp1) -> imp0 !! path0 = None ->
        all_bytes identByte a0 = true).
Proof.
  intros HA Hp Hi Hne.
  assert (aliasesShaped imp) as HI.
  { eapply (AddAll_invariant aliasesShaped); [| |exact HA].
    - intros ? ? ? ? ?. by apply Add_aliasesShaped.
    - intros p b. by rewrite lookup_empty. }
  destruct (AddAll_result _ _ _ _ _ _ _ _ HA Hp Hi) as [[_ ?]|Hl]; [done|].
  destruct (HI _ _ Hl) as (n & j & Ha).
  split; [by exists n, j|]. split; [|split].
  - by rewrite Ha, all_bytes_app, xs_bytes, filter_bytes_all.
  - intros. by apply newAlias_skip_high.
  - intros imp0 path0 a0 imp1 HA0 Hnone.
    destruct (Add_cases _ _ _ _ _ HA0)
      as [(_ & -> & _) | [(_ & ? & _) | (Hn & _ & _ & _)]];
      [done | congruence | by eapply Add_new_bytes].
Qed.

End ImportsFacts.

(** ** Identifiers *)

Section IdentifierFacts.
Context {U : unicode.Tables}.

(** C6: the words of "UserID" are "user", "i" and "d" and its camel case is
    "userID"; the words of "user_id" are "user" and "id", with snake case
    "user_id", pascal case "UserId" and kebab case "user-id". *)
Theorem fixtures_UserID_user_id :
  parse "UserID" = ["user"; "i"; "d"]
  /\ camel (parse "UserID") = "userID"
  /\ Camel (NewIdentifier "UserID") = "userID"
  /\ parse "user_id" = ["user"; "id"]
  /\ snake (parse "user_id") = "user_id"
  /\ pascal (parse "user_id") = "UserId"
  /\ kebab (parse "user_id") = "user-id"
  /\ Snake (NewIdentifier "user_id") = "user_id"
  /\ Pascal (NewIdentifier "user_id") = "UserId"
  /\ Kebab (NewIdentifier "user_id") = "user-id".
Proof. vm_compute. repeat split. Qed.

(** *** White space *)

Lemma trimLeft_spaces (s : string) : forall skip,
  forallb unicode.IsSpace (utf8.runes_from skip s) = true ->
  strings.trimLeft_from skip s = "".
Proof.
  induction s as [|c t IH]; intros skip; [reflexivity|].
  cbn [utf8.runes_from strings.trimLeft_from].
  destruct skip as [|k]; [|apply IH].
  destruct (utf8.DecodeRuneInString (String c t)) as [r w].
  cbn [forallb]. intros [-> Hrest]%andb_true_iff. by apply IH.
Qed.

Lemma TrimSpace_spaces (s : string) :
  forallb unicode.IsSpace (utf8.runes s) = true -> strings.TrimSpace s = "".
Proof.
  intros Hs. unfold strings.TrimSpace, strings.TrimLeftSpace.
  by rewrite trimLeft_spaces.
Qed.

(** C8: when every rune of the input is white space, and so when the input
    is empty, there are no words and the six renderings are empty. *)
Theorem parse_blank (s : string) :
  forallb unicode.IsSpace (utf8.runes s) = true ->
  parse s = []
  /\ NewIdentifier s
     = {| Camel := ""; Kebab := ""; Natural := ""; Package := "";
          Pascal := ""; Snake := ""; Source := s |}.
Proof.
  intros Hs.
  assert (parse s = []) as Hp.
  { unfold parse. by rewrite TrimSpace_spaces. }
  split; [done|]. unfold NewIdentifier. by rewrite Hp.
Qed.

(** *** Runes written and read back *)

Lemma runes_from_skip (u t : string) :
  utf8.runes_from (String.length u) (u +:+ t) = utf8.runes t.
Proof.
  induction u as [|c u IH]; [reflexivity|].
  rewrite app_String. exact IH.
Qed.

Lemma runes_encode (r : rune) (t : string) :
  valid_rune r -> utf8.runes (utf8.EncodeRune r +:+ t) = r :: utf8.runes t.
Proof.
  intros Hr. pose proof (decode_encode r t Hr) as Hd.
  pose proof (encode_length r) as Hlen.
  destruct (utf8.EncodeRune r) as [|c u]; [cbn in Hlen; lia|].
  rewrite app_String in *. unfold utf8.runes at 1. cbn [utf8.runes_from].
  rewrite Hd. cbn [String.length Nat.sub]. rewrite Nat.sub_0_r.
  by rewrite runes_from_skip.
Qed.

Lemma runes_encode_all (rs : list rune) :
  Forall valid_rune rs -> utf8.runes (encode_all rs) = rs.
Proof.
  induction 1 as [|r rs Hr _ IH]; [reflexivity|].
  cbn [encode_all fold_right]. rewrite runes_encode by done.
  f_equal. exact IH.
Qed.

Lemma encode_all_app (rs1 rs2 : list rune) :
  encode_all (rs1 ++ rs2) = encode_all rs1 +:+ encode_all rs2.
Proof.
  induction rs1 as [|r rs1 IH]; [reflexivity|].
  change (utf8.EncodeRune r +:+ encode_all (rs1 ++ rs2)
          = (utf8.EncodeRune r +:+ encode_all rs1) +:+ encode_all rs2).
  by rewrite IH, app_assoc_s.
Qed.

Lemma runes_from_valid (s : string) : forall skip,
  Forall valid_rune (utf8.runes_from skip s).
Proof.
  induction s as [|c t IH]; intros skip; [constructor|].
  cbn [utf8.runes_from]. destruct skip as [|k]; [|apply IH].
  pose proof (decode_spec c t) as Hd.
  destruct (utf8.DecodeRuneInString (String c t)) as [r w].
  constructor; [apply Hd | apply IH].
Qed.

End IdentifierFacts.

(** *** The words of [parse] *)

Section WordFacts.
Context {U : unicode.Tables} {HU : TablesOK U}.

Lemma ToLower_valid (r : rune) :
  valid_rune r -> valid_rune (unicode.ToLower r).
Proof.
  intros Hr. unfold unicode.ToLower, unicode.MaxASCII, unicode.asciiUpper.
  repeat case_match; [| done | by apply toLower_valid].
  unfold valid_rune, utf8.MaxRune in *. zbool. lia.
Qed.

Lemma shift_OK (inp : list rune) (p : parser) :
  parserOK inp p -> parserOK inp (shift p).
Proof.
  intros [Hw Hws]. unfold shift.
  destruct (0 <? String.length (word p)) eqn:Hlen; [|done].
  split; cbn [word words].
  - exists []. by split.
  - apply Forall_app. split; [done|]. constructor; [|constructor].
    split; [|done]. intros Heq. rewrite Heq in Hlen. discriminate.
Qed.

Lemma write_OK (inp : list rune) (p : parser) (r : rune) :
  parserOK inp p -> valid_rune r -> wordRune inp r ->
  parserOK inp (write p r).
Proof.
  intros [(rs & Hrs & Hall) Hws] Hv Hr. split; [|done]. cbn [write word].
  exists (rs ++ [r]). split.
  - rewrite encode_all_app, Hrs. cbn [encode_all fold_right].
    by rewrite app_Empty_r.
  - apply Forall_app. split; [done|]. constructor; [done | constructor].
Qed.

Lemma parse_step_OK (inp : list rune) (p : parser) (r : rune) :
  r ∈ inp -> valid_rune r -> parserOK inp p ->
  parserOK inp (parse_step p r).
Proof.
  intros Hin Hv Hp. unfold parse_step.
  destruct (isUpper r) eqn:Hup.
  - destruct (isLower (unicode.ToLower r)) eqn:Hlow.
    + apply write_OK; [by apply shift_OK | by apply ToLower_valid |].
      split; [done|]. right. by exists r.
    + by do 2 apply shift_OK.
  - destruct (isLower r) eqn:Hlow.
    + apply write_OK; [done | done |]. split; [done|]. by left.
    + by apply shift_OK.
Qed.

Lemma parse_loop_OK (inp rs : list rune) : forall p,
  Forall (fun r => r ∈ inp /\ valid_rune r) rs ->
  parserOK inp p -> parserOK inp (fold_left parse_step rs p).
Proof.
  induction rs as [|r rs IH]; intros p Hrs Hp; [done|].
  apply Forall_cons in Hrs as [[Hin Hv] Hrs].
  cbn [fold_left]. apply IH; [done|]. by apply parse_step_OK.
Qed.

(** Every word of [parse] is the encoding of runes of words, and is not
    empty. *)
Lemma parse_words (s w : string) :
  w ∈ parse s ->
  w <> "" /\ wordOf (utf8.runes (strings.TrimSpace s)) w.
Proof.
  unfold parse. set (t := strings.TrimSpace s).
  destruct (String.length t =? 0); [by intros ?%elem_of_nil|].
  intros Hw.
  assert (parserOK (utf8.runes t)
            (shift (fold_left parse_step (utf8.runes t)
                              {| word := ""; words := [] |}))) as [_ Hws].
  { apply shift_OK, parse_loop_OK.
    - apply Forall_forall. intros r Hr. split; [done|].
      pose proof (runes_from_valid t 0) as Hall.
      by eapply Forall_forall in Hall.
    - split; [by exists [] | constructor]. }
  by eapply Forall_forall in Hws.
Qed.

(** A rune of a word is no separator: it is not white space, not an
    underscore and not a hyphen, and when it is ASCII it is a letter or a
    digit, so no ASCII punctuation. *)
Lemma isLower_no_separator (r : rune) :
  isLower r = true ->
  unicode.IsSpace r = false /\ r <> 95%Z /\ r <> 45%Z
  /\ (unicode.isASCII r = true ->
      (unicode.asciiUpper r || unicode.asciiLower r) || unicode.asciiDigit r
      = true).
Proof.
  unfold isLower, unicode.IsSpace, unicode.IsLetter, unicode.IsNumber.
  intros Hr.
  split; [|split; [|split]]; try (intros ->; vm_compute in Hr; discriminate).
  - destruct (unicode.isASCII r).
    + unfold unicode.asciiUpper, unicode.asciiLower, unicode.asciiDigit in Hr.
      apply not_true_is_false. intros Hs. zbool; lia.
    + destruct (unicode.tabSpace r) eqn:Hs; [|done].
      apply space_no_word in Hs as [Hl Hn]. rewrite Hl, Hn in Hr.
      discriminate.
  - intros Ha. by rewrite Ha in Hr.
Qed.

(** *** ASCII input *)

Lemma take_bytes_all (f : ascii -> bool) (s : string) : forall n,
  all_bytes f s = true -> all_bytes f (take_bytes n s) = true.
Proof.
  induction s as [|c t IH]; intros [|n]; try done.
  cbn [all_bytes take_bytes]. intros [-> Ht]%andb_true_iff. by apply IH.
Qed.

Lemma trimLeft_all (f : ascii -> bool) (s : string) : forall skip,
  all_bytes f s = true -> all_bytes f (strings.trimLeft_from skip s) = true.
Proof.
  induction s as [|c t IH]; intros skip Hs; [done|].
  cbn [strings.trimLeft_from].
  assert (all_bytes f t = true) as Ht.
  { cbn [all_bytes] in Hs. by apply andb_true_iff in Hs as [_ ?]. }
  destruct skip as [|k]; [|by apply IH].
  destruct (utf8.DecodeRuneInString (String c t)) as [r w].
  destruct (unicode.IsSpace r); [by apply IH | done].
Qed.

Lemma TrimSpace_all (f : ascii -> bool) (s : string) :
  all_bytes f s = true -> all_bytes f (strings.TrimSpace s) = true.
Proof.
  intros Hs. unfold strings.TrimSpace, strings.TrimRightSpace.
  pose proof (trimLeft_all f s 0 Hs) as Ht.
  fold (strings.TrimLeftSpace s) in Ht.
  repeat case_match; by apply take_bytes_all.
Qed.

Lemma runes_ascii_all (s : string) :
  all_bytes asciiByte s = true ->
  Forall (fun r => (0 <= r < 0x80)%Z) (utf8.runes s).
Proof.
  induction s as [|c t IH]; [constructor|].
  cbn [all_bytes]. intros [Hc Ht]%andb_true_iff.
  apply Z.ltb_lt in Hc. rewrite runes_ascii by done.
  constructor; [|by apply IH]. pose proof (byte_val_range c). lia.
Qed.

(** On ASCII input a rune of a word is a small letter or a digit. *)
Lemma wordRune_ascii (inp : list rune) (r : rune) :
  Forall (fun r => (0 <= r < 0x80)%Z) inp -> wordRune inp r ->
  (unicode.asciiLower r || unicode.asciiDigit r) = true.
Proof.
  intros Hinp [Hlow Hr]. rewrite Forall_forall in Hinp.
  destruct Hr as [[Hin Hup] | (r0 & Hin & Hup & ->)];
    apply Hinp in Hin; revert Hlow Hup;
    unfold isLower, isUpper, unicode.IsLetter, unicode.IsNumber,
      unicode.IsUpper, unicode.IsTitle, unicode.ToLower, unicode.isASCII,
      unicode.MaxASCII, unicode.asciiUpper, unicode.asciiLower,
      unicode.asciiDigit.
  - replace (0 <=? r)%Z with true by (symmetry; apply Z.leb_le; lia).
    replace (r <=? 127)%Z with true by (symmetry; apply Z.leb_le; lia).
    cbn [andb]. rewrite orb_false_r. intros Hlow Hup. rewrite Hup in Hlow.
    exact Hlow.
  - replace (0 <=? r0)%Z with true by (symmetry; apply Z.leb_le; lia).
    replace (r0 <=? 127)%Z with true by (symmetry; apply Z.leb_le; lia).
    cbn [andb]. rewrite orb_false_r. intros _ Hup. rewrite Hup.
    zbool. apply orb_true_iff. left.
    apply andb_true_iff. split; apply Z.leb_le; lia.
Qed.

Lemma encode_lowerAlnum (rs : list rune) :
  Forall (fun r => (unicode.asciiLower r || unicode.asciiDigit r) = true) rs ->
  all_bytes lowerAlnumByte (encode_all rs) = true.
Proof.
  induction 1 as [|r rs Hr _ IH]; [reflexivity|].
  cbn [encode_all fold_right]. rewrite all_bytes_app. fold (encode_all rs).
  rewrite IH, andb_true_r.
  assert (0 <= r <= 0x7F)%Z as Hrange.
  { unfold unicode.asciiLower, unicode.asciiDigit in Hr. zbool; lia. }
  unfold utf8.EncodeRune.
  replace (0 <=? r)%Z with true by (symmetry; apply Z.leb_le; lia).
  replace (r <=? 127)%Z with true by (symmetry; apply Z.leb_le; lia).
  cbn [andb all_bytes]. unfold lowerAlnumByte.
  rewrite byte_val_of by lia. by rewrite Hr.
Qed.

(** A small ASCII letter or an ASCII digit is not in upper or title case and
    is its own lowercase form. *)
Lemma lowerAlnum_case (r : rune) :
  (unicode.asciiLower r || unicode.asciiDigit r) = true ->
  isUpper r = false /\ unicode.ToLower r = r.
Proof.
  intros Hr.
  assert ((48 <= r <= 57)%Z \/ (97 <= r <= 122)%Z) as Hrange.
  { unfold unicode.asciiLower, unicode.asciiDigit in Hr. zbool; lia. }
  unfold isUpper, unicode.IsUpper, unicode.IsTitle, unicode.ToLower,
    unicode.isASCII, unicode.MaxASCII, unicode.asciiUpper.
  replace (0 <=? r)%Z with true by (symmetry; apply Z.leb_le; lia).
  replace (r <=? 127)%Z with true by (symmetry; apply Z.leb_le; lia).
  replace ((65 <=? r)%Z && (r <=? 90)%Z) with false; [done|].
  symmetry. apply andb_false_iff.
  destruct Hrange; [left | right]; apply Z.leb_gt; lia.
Qed.

(** C7, as the code has it: every word of [parse] is not empty and is made
    of letters and numbers only, so that no rune of it is white space, an
    underscore, a hyphen or ASCII punctuation; each of its runes was read from the trimmed input
    and is not in upper or title case, or is the lowercase form that the
    tables give for a rune in upper or title case that was read.  So a word
    has no rune in upper or title case when every such rune of the input has
    a lowercase form that is not in upper or title case.  When the input is
    ASCII, the words are made of small letters and digits: no rune is in
    upper case and lowercasing changes none. *)
Theorem parse_word_shape (s w : string) :
  w ∈ parse s ->
  w <> ""
  /\ Forall (fun r => wordRune (utf8.runes (strings.TrimSpace s)) r
                      /\ unicode.IsSpace r = false
                      /\ r <> 95%Z /\ r <> 45%Z
                      /\ (unicode.isASCII r = true ->
                          (unicode.asciiUpper r || unicode.asciiLower r)
                          || unicode.asciiDigit r = true))
            (utf8.runes w)
  /\ (Forall (fun r0 => isUpper r0 = true ->
                        isUpper (unicode.ToLower r0) = false)
             (utf8.runes (strings.TrimSpace s)) ->
      noUpper w = true)
  /\ (all_bytes asciiByte s = true ->
      all_bytes lowerAlnumByte w = true
      /\ noUpper w = true
      /\ Forall (fun r => unicode.ToLower r = r) (utf8.runes w)).
Proof.
  intros (Hne & rs & -> & Hrs)%parse_words.
  assert (Forall valid_rune rs) as Hvalid.
  { eapply Forall_impl; [exact Hrs|]. by intros r [? _]. }
  unfold noUpper. rewrite runes_encode_all by done.
  split; [done|]. split; [|split].
  - eapply Forall_impl; [exact Hrs|]. intros r [_ Hr]. split; [done|].
    apply isLower_no_separator, Hr.
  - intros Hcase. apply forallb_forall. intros r Hr%list_elem_of_In.
    rewrite Forall_forall in Hrs, Hcase.
    destruct (Hrs _ Hr) as [_ [_ [[_ ->] | (r0 & Hin & Hup & ->)]]]; [done|].
    by rewrite (Hcase _ Hin Hup).
  - intros Hs.
    assert (Forall (fun r => (unicode.asciiLower r || unicode.asciiDigit r)
                             = true) rs) as Hlow.
    { eapply Forall_impl; [exact Hrs|]. intros r [_ Hr].
      eapply wordRune_ascii; [|exact Hr].
      by apply runes_ascii_all, TrimSpace_all. }
    split; [by apply encode_lowerAlnum|]. split.
    + apply forallb_forall. intros r Hr%list_elem_of_In.
      rewrite Forall_forall in Hlow.
      by destruct (lowerAlnum_case _ (Hlow _ Hr)) as [-> _].
    + eapply Forall_impl; [exact Hlow|]. intros r Hr.
      by destruct (lowerAlnum_case _ Hr) as [_ ->].
Qed.

End WordFacts.

(** * The theorems on concrete inputs *)

Lemma excerpt_OK : TablesOK excerpt.
Proof.
  split.
  - intros r Hr. cbn [unicode.tabToLower excerpt].
    unfold valid_rune, utf8.MaxRune in *. repeat case_match; lia.
  - intros r. cbn [unicode.tabSpace unicode.tabLetter unicode.tabNumber
                   excerpt rune_in existsb].
    rewrite orb_false_r. by intros ->%Z.eqb_eq.
Qed.

(** The example of the comment of [Add], on a table where "json" is in
    use. *)
Example Add_comment_example :
  let imp : Imports := {[ "json" := "json" ]} in
  let imp' : Imports := <[ "encoding/json" := "encodingjson" ]> imp in
  Add (U:=excerpt) 0 imp "encoding/json" = Some ("encodingjson", imp')
  /\ Add (U:=excerpt) 1 imp' "encodingjson"
     = Some ("xencodingjson", <[ "encodingjson" := "xencodingjson" ]> imp').
Proof. vm_compute. split; reflexivity. Qed.

(** A run of capitals gives one word for each letter. *)
Example parse_capitals :
  parse (U:=excerpt) "HTTPServer Name_2"
  = ["h"; "t"; "t"; "p"; "server"; "name"; "2"].
Proof. vm_compute. reflexivity. Qed.

(** Two paths with the same last element, and a path without alias. *)
Lemma Add_aliases_unique_witness :
  AddAll (U:=excerpt) 1 ∅ ["encoding/json"; "json"; "."]
    = Some (["json"; "xjson"; ""], table2)
  /\ aliasesUnique table2.
Proof.
  assert (AddAll (U:=excerpt) 1 ∅ ["encoding/json"; "json"; "."]
          = Some (["json"; "xjson"; ""], table2)) as H
    by (vm_compute; reflexivity).
  split; [exact H|]. exact (proj1 (Add_aliases_unique 1 _ _ _ H)).
Defined.

Lemma Add_alias_valid_witness :
  AddAll (U:=excerpt) 1 ∅ ["encoding/json"; "json"; "."]
    = Some (["json"; "xjson"; ""], table2)
  /\ isIdentifier "xjson" = true /\ isKeyword "xjson" = false.
Proof.
  assert (AddAll (U:=excerpt) 1 ∅ ["encoding/json"; "json"; "."]
          = Some (["json"; "xjson"; ""], table2)) as H
    by (vm_compute; reflexivity).
  split; [exact H|].
  apply (Add_alias_valid 1 _ _ _ "xjson" H).
  - apply list_elem_of_further, list_elem_of_here.
  - discriminate.
Defined.

Lemma Add_idempotent_witness :
  Add (U:=excerpt) 0 ∅ "encoding/json" = Some ("json", table1)
  /\ AddAll (U:=excerpt) 1 table1 ["json"; "a/json"]
     = Some (["xjson"; "ajson"], table3)
  /\ Add (U:=excerpt) 0 table3 "encoding/json" = Some ("json", table3)
  /\ Add (U:=excerpt) 0 table1 "encoding/json" = Some ("json", table1).
Proof.
  assert (Add (U:=excerpt) 0 ∅ "encoding/json" = Some ("json", table1)) as H1
    by (vm_compute; reflexivity).
  assert (AddAll (U:=excerpt) 1 table1 ["json"; "a/json"]
          = Some (["xjson"; "ajson"], table3)) as H2
    by (vm_compute; reflexivity).
  split; [exact H1|]. split; [exact H2|].
  exact (Add_idempotent 0 1 0 _ _ _ _ _ _ _ H1 H2).
Defined.

Lemma Add_frame_witness :
  Add (U:=excerpt) 1 table1 "json" = Some ("xjson", table2)
  /\ (forall k v, table1 !! k = Some v -> table2 !! k = Some v)
  /\ (forall k, k <> "json" -> table2 !! k = table1 !! k)
  /\ size table1 <= size table2 <= S (size table1).
Proof.
  assert (Add (U:=excerpt) 1 table1 "json" = Some ("xjson", table2)) as H
    by (vm_compute; reflexivity).
  split; [exact H|]. exact (Add_frame 1 _ _ _ _ H).
Defined.

(** A path whose first element has no ASCII byte: U+65E5, then "/json". *)
Lemma Add_alias_ascii_witness :
  let paths := ["encoding/json"; "日/json"] in
  let imp : Imports := <[ "日/json" := "xjson" ]> table1 in
  AddAll (U:=excerpt) 1 ∅ paths = Some (["json"; "xjson"], imp)
  /\ (exists n j,
        "xjson" = xs n +:+ filter_bytes identByte
          (strings.Join (drop j (strings.Split "日/json" "/"%char)) ""))
  /\ all_bytes identByte "xjson" = true.
Proof.
  intros paths imp.
  assert (AddAll (U:=excerpt) 1 ∅ paths = Some (["json"; "xjson"], imp)) as H
    by (vm_compute; reflexivity).
  split; [exact H|].
  destruct (Add_alias_ascii 1 _ _ _ 1 "日/json" "xjson" H)
    as (Hshape & Hbytes & _); [reflexivity | reflexivity | discriminate |].
  split; [exact Hshape | exact Hbytes].
Defined.

(** A space, a no-break space (U+00A0) and a tab. *)
Lemma parse_blank_witness :
  let s := String " " (String "194" (String "160" (String "009" ""))) in
  forallb (unicode.IsSpace (U:=excerpt)) (utf8.runes s) = true
  /\ parse (U:=excerpt) s = []
  /\ NewIdentifier (U:=excerpt) s
     = {| Camel := ""; Kebab := ""; Natural := ""; Package := "";
          Pascal := ""; Snake := ""; Source := s |}.
Proof.
  intros s.
  assert (forallb (unicode.IsSpace (U:=excerpt)) (utf8.runes s) = true) as H
    by (vm_compute; reflexivity).
  split; [exact H|]. exact (parse_blank s H).
Defined.

(** The words of "É2 userID": U+00C9 is lowered to U+00E9. *)
Lemma parse_word_shape_witness :
  let s := "É2 userID" in
  let inp := utf8.runes (strings.TrimSpace (U:=excerpt) s) in
  "é2" ∈ parse (U:=excerpt) s
  /\ "é2" <> ""
  /\ Forall (fun r => wordRune (U:=excerpt) inp r
                      /\ unicode.IsSpace (U:=excerpt) r = false
                      /\ r <> 95%Z /\ r <> 45%Z
                      /\ (unicode.isASCII r = true ->
                          (unicode.asciiUpper r || unicode.asciiLower r)
                          || unicode.asciiDigit r = true))
            (utf8.runes "é2")
  /\ (Forall (fun r0 => isUpper (U:=excerpt) r0 = true ->
                        isUpper (U:=excerpt) (unicode.ToLower (U:=excerpt) r0)
                        = false) inp ->
      noUpper (U:=excerpt) "é2" = true)
  /\ (all_bytes asciiByte s = true ->
      all_bytes lowerAlnumByte "é2" = true
      /\ noUpper (U:=excerpt) "é2" = true
      /\ Forall (fun r => unicode.ToLower (U:=excerpt) r = r)
                (utf8.runes "é2")).
Proof.
  intros s inp.
  assert ("é2" ∈ parse (U:=excerpt) s) as H.
  { replace (parse s) with ["é2"; "user"; "i"; "d"]
      by (vm_compute; reflexivity).
    apply list_elem_of_here. }
  split; [exact H|]. exact (parse_word_shape (HU:=excerpt_OK) s "é2" H).
Defined.

(** The input U+2102, the double-struck capital C (bytes E2 84 82), against
    C7 as stated: the rune is an uppercase letter and its own lowercase form,
    so the one word of the input holds a rune in upper case. *)
Lemma parse_word_uppercase :
  parse (U:=excerpt) "ℂ" = ["ℂ"]
  /\ utf8.runes "ℂ" = [0x2102%Z]
  /\ ~ (forall w, w ∈ parse (U:=excerpt) "ℂ" -> noUpper (U:=excerpt) w = true).
Proof.
  assert (parse (U:=excerpt) "ℂ" = ["ℂ"]) as H by (vm_compute; reflexivity).
  split; [exact H|]. split; [vm_compute; reflexivity|].
  intros Hall. specialize (Hall "ℂ"). rewrite H in Hall.
  specialize (Hall (list_elem_of_here _ _)). vm_compute in Hall. discriminate.
Qed.

(** * More on [imports.go] *)

Lemma app_length_s (s t : string) :
  String.length (s +:+ t) = String.length s + String.length t.
Proof.
  induction s as [|c s IH]; [reflexivity|].
  rewrite app_String. cbn [String.length]. by rewrite IH.
Qed.

(** ** [strings.Split] *)

Lemma split_go_nonempty (sep : ascii) (s : string) : forall cur,
  1 <= length (strings.split_go sep cur s).
Proof.
  induction s as [|c s IH]; intros cur; cbn [strings.split_go].
  - cbn. lia.
  - destruct (Ascii.eqb c sep); [cbn; lia | apply IH].
Qed.

Lemma split_go_noByte (sep : ascii) (e : string) : forall cur,
  noByte sep e = true -> strings.split_go sep cur e = [cur +:+ e].
Proof.
  induction e as [|c e IH]; intros cur; cbn [strings.split_go].
  - by rewrite app_Empty_r.
  - unfold noByte. cbn [all_bytes]. intros [Hc He]%andb_true_iff.
    apply negb_true_iff in Hc. rewrite Hc, IH by done.
    by rewrite app_assoc_s.
Qed.

Lemma split_go_snoc (sep : ascii) (e : string) (s : string) : forall cur,
  noByte sep e = true ->
  strings.split_go sep cur (s +:+ String sep e)
  = strings.split_go sep cur s ++ [e].
Proof.
  induction s as [|c s IH]; intros cur He.
  - rewrite app_Empty. cbn [strings.split_go]. rewrite Ascii.eqb_refl.
    by rewrite split_go_noByte, app_Empty.
  - rewrite app_String. cbn [strings.split_go].
    destruct (Ascii.eqb c sep); [|by apply IH].
    by rewrite IH.
Qed.

Section ImportsMore.
Context {U : unicode.Tables}.

(** ** The order of the candidates *)

Lemma suffixLoop_first imp elems n : forall i init a b,
  i + n = S (length elems) -> 1 <= i ->
  suffixLoop imp elems n i init = (a, b) ->
  (forall j, i <= j -> j < (if b then 0 else S (length elems)) ->
             isValid imp (candidate elems j) = false)
  /\ (b = true ->
      exists k, i <= k <= length elems /\ a = candidate elems k
                /\ isValid imp a = true
                /\ forall j, i <= j < k ->
                      isValid imp (candidate elems j) = false)
  /\ (b = false -> n <> 0 -> a = candidate elems (length elems)).
Proof.
  induction n as [|n IH]; intros i init a b Hin Hi; cbn [suffixLoop].
  - intros [= <- <-]. split; [intros; lia|]. split; [discriminate | done].
  - assert (candidate elems i = newAlias (drop (length elems - i) elems))
      as Hcand.
    { unfold candidate. by rewrite (proj2 (Nat.leb_le _ _)) by lia. }
    rewrite <- Hcand.
    destruct (isValid imp (candidate elems i)) eqn:Hv.
    + intros [= <- <-]. split; [intros; lia|]. split; [|discriminate].
      intros _. exists i. repeat split; [lia | lia | done | intros; lia].
    + intros Hloop.
      destruct (IH (S i) _ _ _ ltac:(lia) ltac:(lia) Hloop)
        as (Hall & Htrue & Hfalse).
      split; [|split].
      * intros j Hj Hb. destruct (decide (j = i)) as [->|]; [done|].
        apply Hall; [lia | done].
      * intros Hb. destruct (Htrue Hb) as (k & Hk & Ha & Hvk & Hbefore).
        exists k. repeat split; [lia | lia | done | done |].
        intros j Hj. destruct (decide (j = i)) as [->|]; [done|].
        apply Hbefore. lia.
      * intros Hb _. destruct n as [|n].
        -- cbn [suffixLoop] in Hloop. injection Hloop as <- _.
           f_equal. lia.
        -- by apply Hfalse.
Qed.

Lemma prependX_first imp fuel : forall alias a,
  prependX fuel imp alias = Some a ->
  exists m, a = xs m +:+ alias /\ isValid imp a = true
            /\ forall m', m' < m -> isValid imp (xs m' +:+ alias) = false.
Proof.
  induction fuel as [|fuel IH]; intros alias a; cbn [prependX];
    destruct (isValid imp alias) eqn:Hv; try discriminate.
  - intros [= <-]. exists 0. repeat split; [done | intros; lia].
  - intros [= <-]. exists 0. repeat split; [done | intros; lia].
  - intros (m & -> & Hva & Hbefore)%IH. exists (S m).
    rewrite <- xs_shift. repeat split; [done|].
    intros [|m'] Hm'; [done|]. rewrite <- xs_shift. apply Hbefore. lia.
Qed.

(** For a path that is not in the table and needs an alias, [Add] returns
    the first valid alias in the order of the candidates: the last element
    of the path, the last two, and so on to the whole path, then the whole
    path after one 'x', after two, and so on.  Every candidate before the
    one returned is not valid. *)
Theorem Add_first_candidate fuel (imp : Imports) (path a : string)
    (imp' : Imports) :
  Add fuel imp path = Some (a, imp') ->
  ~ noAlias path -> imp !! path = None ->
  exists k, 1 <= k
    /\ a = candidate (strings.Split path "/"%char) k
    /\ isValid imp a = true
    /\ (forall j, 1 <= j < k ->
          isValid imp (candidate (strings.Split path "/"%char) j) = false)
    /\ imp' = <[path := a]> imp.
Proof.
  intros HA Hn Hl. revert HA. unfold Add.
  rewrite <- noAlias_test in Hn. apply not_true_is_false in Hn.
  rewrite Hn, Hl.
  set (elems := strings.Split path "/"%char).
  assert (1 <= length elems) as Hlen by apply split_go_nonempty.
  destruct (suffixLoop _ _ _ _ _) as [alias b] eqn:Hloop.
  destruct (suffixLoop_first imp elems (length elems) 1 "" alias b
              eq_refl (le_n 1) Hloop) as (Hall & Htrue & Hfalse).
  destruct b.
  - intros [= <- <-].
    destruct (Htrue eq_refl) as (k & Hk & Ha & Hv & Hbefore).
    exists k. repeat split; [lia | done | done | done].
  - rewrite (Hfalse eq_refl) by lia.
    destruct (prependX _ _ _) as [a'|] eqn:Hx; [|discriminate].
    intros [= <- <-].
    apply prependX_first in Hx as (m & -> & Hv & Hbefore).
    assert (candidate elems (length elems) = newAlias elems) as Hwhole.
    { unfold candidate. rewrite Nat.leb_refl, Nat.sub_diag. by rewrite drop_0. }
    assert (isValid imp (newAlias elems) = false) as Hinv.
    { rewrite <- Hwhole. apply Hall; lia. }
    rewrite Hwhole in *.
    destruct m as [|m].
    { change (xs 0 +:+ newAlias elems) with (newAlias elems) in Hv.
      congruence. }
    assert (forall j, length elems < j ->
              candidate elems j = xs (j - length elems) +:+ newAlias elems)
      as Hlate.
    { intros j Hj. unfold candidate.
      by rewrite (proj2 (Nat.leb_gt _ _)) by lia. }
    exists (length elems + S m). split; [lia|]. split.
    { rewrite Hlate by lia. do 2 f_equal. lia. }
    split; [done|]. split; [|done].
    intros j Hj. destruct (decide (j <= length elems)).
    + apply Hall; lia.
    + rewrite Hlate by lia. apply Hbefore. lia.
Qed.

(** ** The first choice *)

Lemma letterByte_identByte (c : ascii) :
  letterByte c = true -> identByte c = true.
Proof.
  unfold letterByte, identByte, invalidIdentifierChar. intros Hc.
  apply negb_true_iff, negb_false_iff.
  apply orb_true_iff in Hc as [Hc|Hc]; rewrite Hc;
    by rewrite ?orb_true_r, ?orb_true_l.
Qed.

Lemma isIdentifier_bytes (e : string) :
  isIdentifier e = true -> all_bytes identByte e = true.
Proof.
  destruct e as [|c t]; [done|]. cbn [isIdentifier all_bytes].
  intros [Hc Ht]%andb_true_iff. by rewrite letterByte_identByte.
Qed.

Lemma filter_bytes_id (f : ascii -> bool) (s : string) :
  all_bytes f s = true -> filter_bytes f s = s.
Proof.
  induction s as [|c s IH]; [done|]. cbn [all_bytes filter_bytes].
  intros [-> Hs]%andb_true_iff. by rewrite IH.
Qed.

Lemma identByte_noSlash (e : string) :
  all_bytes identByte e = true -> noByte "/" e = true.
Proof.
  unfold noByte. induction e as [|c e IH]; [done|]. cbn [all_bytes].
  intros [Hc He]%andb_true_iff. rewrite IH, andb_true_r by done.
  destruct (Ascii.eqb_spec c "/") as [->|]; [|done].
  vm_compute in Hc. discriminate.
Qed.

(** An identifier that is no keyword and not in use is valid. *)
Lemma isValid_of_identifier (imp : Imports) (e : string) :
  isIdentifier e = true -> isKeyword e = false -> ~ usedAlias imp e ->
  isValid imp e = true.
Proof.
  intros He Hk Hfree. apply isValid_true.
  destruct e as [|c t]; [done|].
  split; [done|]. split; [done|]. split; [|done].
  cbn [isIdentifier] in He. apply andb_true_iff in He as [Hc _].
  pose proof (identByte_ascii _ (letterByte_identByte _ Hc)) as Hlow.
  pose proof (byte_val_range c) as Hrange.
  rewrite runes_ascii by done. intros r rest [= <- _].
  unfold unicode.IsLetter, unicode.isASCII, unicode.MaxASCII.
  replace (0 <=? byte_val c)%Z with true by (symmetry; apply Z.leb_le; lia).
  replace (byte_val c <=? 127)%Z with true by (symmetry; apply Z.leb_le; lia).
  exact Hc.
Qed.

(** When the last element of a path that is not in the table is an
    identifier, no keyword and not in use as an alias, [Add] binds the path
    to it, whatever the fuel and the elements before. *)
Theorem Add_base_name fuel (imp : Imports) (path dir e : string) :
  path = e \/ path = dir +:+ String "/" e ->
  isIdentifier e = true -> isKeyword e = false -> ~ usedAlias imp e ->
  imp !! path = None ->
  Add fuel imp path = Some (e, <[path := e]> imp).
Proof.
  intros Hpath He Hk Hfree Hl.
  pose proof (isIdentifier_bytes _ He) as Hbytes.
  assert (exists pre, strings.Split path "/"%char = pre ++ [e])
    as [pre Hsplit].
  { unfold strings.Split. destruct Hpath as [->| ->].
    - exists []. rewrite split_go_noByte by by apply identByte_noSlash.
      by rewrite app_Empty.
    - eexists. apply split_go_snoc. by apply identByte_noSlash. }
  assert (String.eqb path "" || String.eqb path "." || String.eqb path "/"
          = false) as Hn.
  { apply not_true_is_false. rewrite noAlias_test. unfold noAlias.
    destruct e as [|c t]; [done|]. cbn [isIdentifier] in He.
    apply andb_true_iff in He as [Hc _].
    destruct Hpath as [->| ->].
    - intros [?|[[= -> ->]|[= -> ->]]]; [done | |];
        vm_compute in Hc; discriminate.
    - intros [H|[H|H]]; apply (f_equal String.length) in H;
        rewrite app_length_s in H; cbn [String.length] in H; lia. }
  unfold Add. rewrite Hn, Hl, Hsplit.
  assert (length (pre ++ [e]) = S (length pre)) as Hlen
    by (rewrite length_app; cbn; lia).
  rewrite Hlen. cbn [suffixLoop]. rewrite Hlen.
  replace (S (length pre) - 1) with (length pre) by lia.
  rewrite drop_app_length.
  assert (newAlias [e] = e) as ->.
  { unfold newAlias. cbn [strings.Join].
    by rewrite removeInvalid_filter, filter_bytes_id. }
  by rewrite isValid_of_identifier.
Qed.

(** ** New paths *)

(** On every table, a call of [Add] for a path that is not in the table and
    needs an alias adds one entry: the alias is not empty, is an identifier
    and no keyword, and was not in use. *)
Theorem Add_new_path fuel (imp : Imports) (path a : string) (imp' : Imports) :
  Add fuel imp path = Some (a, imp') ->
  ~ noAlias path -> imp !! path = None ->
  a <> ""
  /\ isIdentifier a = true /\ isKeyword a = false
  /\ ~ usedAlias imp a
  /\ imp' = <[path := a]> imp
  /\ size imp' = S (size imp).
Proof.
  intros HA Hn Hl.
  pose proof (Add_new_bytes _ _ _ _ _ HA Hn Hl) as Hbytes.
  destruct (Add_cases _ _ _ _ _ HA)
    as [(? & _) | [(_ & ? & _) | (_ & _ & Hv & ->)]]; [done | congruence |].
  pose proof (isValid_identifier _ _ Hv Hbytes) as Hid.
  apply isValid_true in Hv as (Hne & Hk & _ & Hfree).
  repeat split; try done. by apply map_size_insert_None.
Qed.

(** ** The keys of the table *)

(** After a sequence of calls of [Add], the paths of the table are the ones
    it had and the paths of the calls that need an alias: nothing else is
    added and none of them is left out. *)
Theorem AddAll_keys fuel (paths : list string) : forall (imp : Imports)
    (aliases : list string) (imp' : Imports) (k : string),
  AddAll fuel imp paths = Some (aliases, imp') ->
  is_Some (imp' !! k) <-> is_Some (imp !! k) \/ (k ∈ paths /\ ~ noAlias k).
Proof.
  induction paths as [|p rest IH]; intros imp aliases imp' k; cbn [AddAll].
  - intros [= <- <-]. split; [by left|]. intros [?|[[]%elem_of_nil _]]. done.
  - destruct (Add fuel imp p) as [[a imp1]|] eqn:HA; [|discriminate].
    destruct (AddAll fuel imp1 rest) as [[al imp2]|] eqn:HR; [|discriminate].
    intros [= <- <-]. rewrite (IH _ _ _ k HR), elem_of_cons.
    assert (is_Some (imp1 !! k)
            <-> is_Some (imp !! k) \/ (k = p /\ ~ noAlias k)) as ->.
    { destruct (Add_cases _ _ _ _ _ HA)
        as [(Hn & _ & ->) | [(Hn & Hp & ->) | (Hn & Hp & _ & ->)]].
      - split; [by left|]. intros [?|[-> ?]]; done.
      - split; [by left|]. intros [?|[-> _]]; [done | by eexists].
      - rewrite lookup_insert. case_decide as Hpk.
        + subst k. split; [by right | by eexists].
        + split; [by left|]. intros [?|[-> _]]; done. }
    tauto.
Qed.

End ImportsMore.

(** * More on [identifier.go] *)

Section IdentifierMore.
Context {U : unicode.Tables}.

(** ** Inputs without words *)

Lemma parse_step_writes (p : parser) (r : rune) :
  parse_step p r
  = if writes r
    then write (if isUpper r then shift p else p)
               (if isUpper r then unicode.ToLower r else r)
    else shift (if isUpper r then shift p else p).
Proof. unfold parse_step, writes. by destruct (isUpper r). Qed.

Lemma shift_started (p : parser) : started (shift p) <-> started p.
Proof.
  destruct p as [w ws]. unfold shift, started. cbn [word words].
  destruct w as [|c t]; cbn [String.length Nat.ltb Nat.leb word words];
    [done|].
  split; intros _; [by left | right]. by destruct ws.
Qed.

Lemma shift_words_nil (p : parser) : words (shift p) = [] <-> ~ started p.
Proof.
  destruct p as [w ws]. unfold shift, started. cbn [word words].
  destruct w as [|c t]; cbn [String.length Nat.ltb Nat.leb word words].
  - split; [by intros -> [?|?] | intros H].
    destruct ws; [done|]. exfalso. apply H. by right.
  - split; [by destruct ws | intros H]. exfalso. apply H. by left.
Qed.

Lemma write_started (p : parser) (r : rune) : started (write p r).
Proof.
  left. cbn [write word]. pose proof (encode_length r) as Hlen.
  intros Heq. apply (f_equal String.length) in Heq.
  rewrite app_length_s in Heq. cbn in Heq. lia.
Qed.

Lemma parse_loop_started (rs : list rune) : forall p,
  started (fold_left parse_step rs p)
  <-> started p \/ existsb writes rs = true.
Proof.
  induction rs as [|r rs IH]; intros p; cbn [fold_left existsb].
  - split; [by left | by intros [?|?]].
  - rewrite IH, parse_step_writes. destruct (writes r); cbn [orb].
    + split; [by right | intros _; left; apply write_started].
    + destruct (isUpper r); rewrite !shift_started; tauto.
Qed.

(** [parse] returns no word exactly when no rune of the trimmed input is a
    letter or a number, once the runes in upper or title case are lowered:
    an input of separators only has no words, and any other input has
    one. *)
Theorem parse_nil_iff (s : string) :
  parse s = []
  <-> forallb (fun r => negb (writes r)) (utf8.runes (strings.TrimSpace s))
      = true.
Proof.
  unfold parse. set (t := strings.TrimSpace s).
  destruct (String.length t =? 0) eqn:Hlen.
  - destruct t; [done | discriminate].
  - rewrite shift_words_nil, parse_loop_started.
    assert (forall rs, existsb writes rs = true
              <-> forallb (fun r => negb (writes r)) rs <> true) as Hex.
    { induction rs as [|r rs IH]; cbn; [done|].
      destruct (writes r); cbn; [done | exact IH]. }
    rewrite Hex. unfold started. cbn [word words].
    destruct (forallb _ _); split; try done; intros H; [|exfalso; apply H].
    + by intros [[?|?]|?].
    + right. done.
Qed.

(** ** Title case *)

Lemma fold_encode (rs : list rune) : forall init,
  fold_left (fun sb r => sb +:+ utf8.EncodeRune r) rs init
  = init +:+ encode_all rs.
Proof.
  induction rs as [|r rs IH]; intros init; cbn [fold_left].
  - by rewrite app_Empty_r.
  - rewrite IH, app_assoc_s. reflexivity.
Qed.

Lemma title_encode (r : rune) (rs : list rune) :
  valid_rune r -> Forall valid_rune rs ->
  title (encode_all (r :: rs))
  = utf8.EncodeRune (unicode.ToTitle r) +:+ encode_all rs.
Proof.
  intros Hr Hrs. unfold title.
  rewrite runes_encode_all by by constructor.
  apply fold_encode.
Qed.

(** [title] on valid UTF-8 changes the first rune only: it is written in
    title case and the bytes of the other runes stay as they are; on the
    empty string it returns the empty string. *)
Theorem title_first_rune (r : rune) (rs : list rune) :
  valid_rune r -> Forall valid_rune rs ->
  title (encode_all (r :: rs))
  = utf8.EncodeRune (unicode.ToTitle r) +:+ encode_all rs
  /\ title "" = "".
Proof.
  intros Hr Hrs. split; [by apply title_encode | reflexivity].
Qed.

Lemma encode_sanitize (r : rune) :
  utf8.EncodeRune r = utf8.EncodeRune (sanitize r) /\ valid_rune (sanitize r).
Proof.
  unfold sanitize, valid_rune, utf8.MaxRune, utf8.RuneError.
  destruct (_ || _) eqn:Hbad.
  - split; [|lia]. unfold utf8.EncodeRune, utf8.MaxRune.
    rewrite Hbad.
    repeat case_match; try reflexivity; zbool; lia.
  - split; [done|]. zbool; lia.
Qed.

Lemma encoded_app (s t : string) : encoded s -> encoded t -> encoded (s +:+ t).
Proof.
  intros (rs & -> & Hrs) (ts & -> & Hts). exists (rs ++ ts).
  split; [by rewrite encode_all_app | by apply Forall_app].
Qed.

Lemma encoded_rune (r : rune) : encoded (utf8.EncodeRune r).
Proof.
  destruct (encode_sanitize r) as [Heq Hv]. exists [sanitize r].
  split; [|by constructor]. cbn [encode_all fold_right].
  by rewrite app_Empty_r.
Qed.

(** What [title] returns is valid UTF-8, whatever it is given. *)
Lemma title_encoded (w : string) : encoded (title w).
Proof.
  unfold title. pose proof (runes_from_valid w 0) as Hv.
  fold (utf8.runes w) in Hv.
  destruct (utf8.runes w) as [|r rs]; [by exists []|].
  rewrite fold_encode. apply encoded_app; [apply encoded_rune|].
  exists rs. split; [done|]. by apply Forall_cons in Hv as [_ ?].
Qed.

Lemma title_app (w x : string) :
  encoded w -> w <> "" -> encoded x -> title (w +:+ x) = title w +:+ x.
Proof.
  intros (rs & -> & Hrs) Hne (xs & -> & Hxs).
  destruct rs as [|r rs]; [done|].
  apply Forall_cons in Hrs as [Hr Hrs].
  rewrite <- encode_all_app, <- app_comm_cons.
  rewrite (title_encode r rs Hr Hrs).
  rewrite (title_encode r (rs ++ xs) Hr) by by apply Forall_app.
  by rewrite encode_all_app, app_assoc_s.
Qed.

Lemma fold_title (ws : list string) : forall init,
  fold_left (fun sb w => sb +:+ title w) ws init
  = init +:+ fold_left (fun sb w => sb +:+ title w) ws "".
Proof.
  induction ws as [|w ws IH]; intros init; cbn [fold_left].
  - by rewrite app_Empty_r.
  - rewrite IH, (IH ("" +:+ title w)), app_Empty. by rewrite app_assoc_s.
Qed.

Lemma fold_title_encoded (ws : list string) :
  encoded (fold_left (fun sb w => sb +:+ title w) ws "").
Proof.
  induction ws as [|w ws IH]; cbn [fold_left]; [by exists []|].
  rewrite fold_title, app_Empty. apply encoded_app; [apply title_encoded|done].
Qed.

(** Pascal case is camel case with its first rune in title case, when the
    first word is not empty and is valid UTF-8. *)
Lemma pascal_title_camel (w : string) (rest : list string) :
  encoded w -> w <> "" ->
  pascal (w :: rest) = title (camel (w :: rest)).
Proof.
  intros Hw Hne. unfold pascal, camel. cbn [fold_left].
  rewrite fold_title, (fold_title rest w), app_Empty.
  by rewrite title_app by (done || apply fold_title_encoded).
Qed.

(** ** What every word keeps *)

(** A property of strings that holds of the empty string and is kept when a
    letter or a number is written holds of every word of [parse]; and no
    word is empty. *)
Lemma parse_invariant (P : string -> Prop) :
  P "" ->
  (forall w r, P w -> isLower r = true -> P (w +:+ utf8.EncodeRune r)) ->
  forall s w, w ∈ parse s -> w <> "" /\ P w.
Proof.
  intros Hnil Hwrite s w.
  set (I := fun p : parser =>
              P (word p) /\ Forall (fun w => w <> "" /\ P w) (words p)).
  assert (forall p, I p -> I (shift p)) as Hshift.
  { intros [w0 ws] [Hw Hws]. unfold shift. cbn [word words] in *.
    destruct w0 as [|c t]; [done|]. split; [done|]. cbn [words].
    apply Forall_app. split; [done|]. by repeat constructor. }
  assert (forall rs p, I p -> I (fold_left parse_step rs p)) as Hloop.
  { induction rs as [|r rs IH]; intros p Hp; [done|]. cbn [fold_left].
    apply IH. unfold parse_step.
    destruct (isUpper r).
    - destruct (isLower (unicode.ToLower r)) eqn:Hl.
      + destruct (Hshift _ Hp) as [Hw Hws]. split; [|done].
        by apply Hwrite.
      + by do 2 apply Hshift.
    - destruct (isLower r) eqn:Hl.
      + destruct Hp as [Hw Hws]. split; [|done]. by apply Hwrite.
      + by apply Hshift. }
  unfold parse. destruct (String.length _ =? 0); [by intros ?%elem_of_nil|].
  intros Hin.
  assert (I {| word := ""; words := [] |}) as H0 by (split; [done|constructor]).
  destruct (Hshift _ (Hloop (utf8.runes (strings.TrimSpace s)) _ H0))
    as [_ Hws].
  rewrite Forall_forall in Hws. by apply Hws.
Qed.

(** The Pascal rendering is the Camel rendering with its first rune in title
    case, for every input. *)
Theorem pascal_of_camel (s : string) :
  pascal (parse s) = title (camel (parse s))
  /\ Pascal (NewIdentifier s) = title (Camel (NewIdentifier s)).
Proof.
  assert (pascal (parse s) = title (camel (parse s))) as H; [|by split].
  destruct (parse s) as [|w rest] eqn:Hp; [reflexivity|].
  destruct (parse_invariant encoded) with (s := s) (w := w) as [Hne Hw].
  - by exists [].
  - intros w0 r Hw0 _. apply encoded_app; [done | apply encoded_rune].
  - rewrite Hp. apply list_elem_of_here.
  - by apply pascal_title_camel.
Qed.

(** ** Words back from a rendering *)

Lemma split_go_prefix (sep : ascii) (e x : string) : forall cur,
  noByte sep e = true ->
  strings.split_go sep cur (e +:+ String sep x)
  = (cur +:+ e) :: strings.split_go sep "" x.
Proof.
  induction e as [|c e IH]; intros cur.
  - intros _. rewrite app_Empty, app_Empty_r. cbn [strings.split_go].
    by rewrite Ascii.eqb_refl.
  - unfold noByte. cbn [all_bytes]. intros [Hc He]%andb_true_iff.
    apply negb_true_iff in Hc. rewrite app_String. cbn [strings.split_go].
    rewrite Hc, IH by done. by rewrite app_assoc_s.
Qed.

(** Splitting what was joined gives the elements back, when there is one at
    least and none holds the separator. *)
Lemma Split_Join (sep : ascii) (ws : list string) :
  ws <> [] -> Forall (fun w => noByte sep w = true) ws ->
  strings.Split (strings.Join ws (String sep "")) sep = ws.
Proof.
  unfold strings.Split. induction ws as [|w ws IH]; [done|].
  intros _ [Hw Hws]%Forall_cons. destruct ws as [|w' ws].
  - cbn [strings.Join]. by rewrite split_go_noByte, app_Empty.
  - change (strings.Join (w :: w' :: ws) (String sep ""))
      with (w +:+ String sep (strings.Join (w' :: ws) (String sep ""))).
    rewrite split_go_prefix, app_Empty by done. f_equal. by apply IH.
Qed.

(** A letter or a number is written without a byte that is ASCII and
    neither letter nor number. *)
Lemma encode_noByte (sep : ascii) (r : rune) :
  (byte_val sep < 0x80)%Z -> isLower (byte_val sep) = false ->
  isLower r = true -> noByte sep (utf8.EncodeRune r) = true.
Proof.
  intros Hsep Hno Hr. pose proof (byte_val_range sep) as Hrange.
  assert (forall z, (0 <= z < 256)%Z -> z <> byte_val sep ->
            negb (Ascii.eqb (byte_of z) sep) = true) as Hne.
  { intros z Hz Hzs. apply negb_true_iff, Ascii.eqb_neq. intros Heq.
    apply Hzs. by rewrite <- Heq, byte_val_of. }
  unfold noByte, utf8.EncodeRune, utf8.MaxRune.
  repeat case_match; cbn [all_bytes]; zbool;
    rewrite ?Hne, ?andb_true_l; try done; try zdm.
  intros ->. congruence.
Qed.

(** Splitting the snake, kebab or natural rendering at its separator gives
    the words of the input back; when there are no words, the rendering is
    empty and splitting it gives one empty string. *)
Theorem words_of_rendering (s : string) :
  let back (ws : list string) :=
    match parse s with [] => [""] | _ => parse s end = ws in
  back (strings.Split (snake (parse s)) "_"%char)
  /\ back (strings.Split (kebab (parse s)) "-"%char)
  /\ back (strings.Split (natural (parse s)) " "%char).
Proof.
  cbn zeta.
  assert (forall sep, (byte_val sep < 0x80)%Z ->
            isLower (byte_val sep) = false ->
            match parse s with [] => [""] | _ => parse s end
            = strings.Split (strings.Join (parse s) (String sep "")) sep)
    as Hsep.
  { intros sep Hlow Hno.
    destruct (parse s) as [|w rest] eqn:Hp; [reflexivity|].
    symmetry. apply Split_Join; [done|]. rewrite <- Hp.
    apply Forall_forall. intros w' Hw'.
    destruct (parse_invariant (fun w => noByte sep w = true))
      with (s := s) (w := w') as [_ ?]; try done.
    intros w0 r Hw0 Hr. pose proof (encode_noByte sep r Hlow Hno Hr) as He.
    unfold noByte in *. by rewrite all_bytes_app, Hw0, He. }
  unfold snake, kebab, natural.
  repeat split; apply Hsep; by vm_compute.
Qed.

End IdentifierMore.

(** ** ASCII inputs *)

Lemma list_ascii_app (s t : string) :
  list_ascii_of_string (s +:+ t)
  = list_ascii_of_string s ++ list_ascii_of_string t.
Proof.
  induction s as [|c s IH]; [reflexivity|].
  rewrite app_String. cbn [list_ascii_of_string]. by rewrite IH.
Qed.

Lemma take_bytes_app (u t : string) :
  take_bytes (String.length u) (u +:+ t) = u.
Proof.
  induction u as [|c u IH]; [by destruct t|].
  rewrite app_String. cbn [String.length take_bytes]. by rewrite IH.
Qed.

Lemma drop_bytes_app (u t : string) :
  drop_bytes (String.length u) (u +:+ t) = t.
Proof.
  induction u as [|c u IH]; [reflexivity|].
  rewrite app_String. exact IH.
Qed.

Lemma take_bytes_length (s : string) : take_bytes (String.length s) s = s.
Proof.
  rewrite <- (app_Empty_r s) at 2. apply take_bytes_app.
Qed.

(** A string that is not empty ends with a byte. *)
Lemma string_snoc (s : string) :
  s <> "" -> exists u c, s = u +:+ String c "".
Proof.
  induction s as [|c s IH]; [done|]. intros _.
  destruct s as [|c' s'].
  - by exists "", c.
  - destruct IH as (u & d & Hu); [done|]. exists (String c u), d.
    by rewrite app_String, <- Hu.
Qed.

Lemma take_bytes_snoc (s : string) : forall i,
  i < String.length s ->
  exists c, take_bytes (S i) s = take_bytes i s +:+ String c "".
Proof.
  induction s as [|c s IH]; intros i Hi; cbn [String.length] in Hi; [lia|].
  destruct i as [|i].
  - exists c. by destruct s.
  - destruct (IH i) as [d Hd]; [lia|]. exists d.
    change (take_bytes (S (S i)) (String c s))
      with (String c (take_bytes (S i) s)).
    by rewrite Hd.
Qed.

Lemma take_bytes_len (s : string) : forall i,
  i <= String.length s -> String.length (take_bytes i s) = i.
Proof.
  induction s as [|c s IH]; intros [|i] Hi; cbn in *; try lia.
  rewrite IH; lia.
Qed.

Section IdentifierAscii.
Context {U : unicode.Tables}.

Lemma IsSpace_ascii (c : ascii) :
  asciiByte c = true -> unicode.IsSpace (byte_val c) = spaceByte c.
Proof.
  intros Hc%Z.ltb_lt. pose proof (byte_val_range c).
  unfold unicode.IsSpace, unicode.isASCII, unicode.MaxASCII, spaceByte.
  replace (0 <=? byte_val c)%Z with true by (symmetry; apply Z.leb_le; lia).
  by replace (byte_val c <=? 127)%Z with true
    by (symmetry; apply Z.leb_le; lia).
Qed.

Lemma decode_ascii (c : ascii) (t : string) :
  asciiByte c = true ->
  utf8.DecodeRuneInString (String c t) = (byte_val c, 1).
Proof.
  intros Hc. cbn [utf8.DecodeRuneInString]. unfold utf8.RuneSelf.
  unfold asciiByte in Hc. by rewrite Hc.
Qed.

Lemma decodeLast_ascii (u : string) (c : ascii) :
  asciiByte c = true ->
  utf8.DecodeLastRuneInString (u +:+ String c "") = (byte_val c, 1).
Proof.
  intros Hc. unfold utf8.DecodeLastRuneInString.
  rewrite list_ascii_app. cbn [list_ascii_of_string].
  rewrite rev_unit. unfold utf8.RuneSelf. unfold asciiByte in Hc.
  by rewrite Hc.
Qed.

(** On ASCII [TrimLeftFunc] removes white space bytes at the start. *)
Lemma TrimLeft_ascii (s : string) :
  all_bytes asciiByte s = true ->
  exists sp, s = sp +:+ strings.TrimLeftSpace s
             /\ all_bytes spaceByte sp = true.
Proof.
  unfold strings.TrimLeftSpace.
  induction s as [|c t IH]; [by exists ""|].
  cbn [all_bytes]. intros [Hc Ht]%andb_true_iff.
  cbn [strings.trimLeft_from]. rewrite decode_ascii, IsSpace_ascii by done.
  destruct (spaceByte c) eqn:Hsp; [|by exists ""].
  destruct (IH Ht) as (sp & Hsp' & Hall). exists (String c sp).
  cbn [Nat.sub]. rewrite app_String, <- Hsp'. cbn [all_bytes].
  by rewrite Hsp, Hall.
Qed.

Lemma lastIndexFunc_ascii (s : string) (n : nat) : forall i,
  all_bytes asciiByte s = true -> i <= n -> i <= String.length s ->
  match strings.lastIndexFunc n s i with
  | Some j =>
    exists u c sp, take_bytes i s = u +:+ String c sp
                   /\ String.length u = j /\ spaceByte c = false
                   /\ all_bytes spaceByte sp = true
  | None => all_bytes spaceByte (take_bytes i s) = true
  end.
Proof.
  intros i Hs. revert i. induction n as [|n IH]; intros i Hin Hlen.
  - assert (i = 0) as -> by lia. by destruct s.
  - cbn [strings.lastIndexFunc]. destruct i as [|i]; [by destruct s|].
    cbn [Nat.eqb].
    destruct (take_bytes_snoc s i) as [c Hc]; [lia|]. rewrite Hc.
    assert (asciiByte c = true) as Hca.
    { pose proof (take_bytes_all asciiByte s (S i) Hs) as Hall.
      rewrite Hc, all_bytes_app in Hall. cbn [all_bytes] in Hall.
      by apply andb_true_iff in Hall as [_ [? _]%andb_true_iff]. }
    rewrite decodeLast_ascii, IsSpace_ascii by done.
    replace (S i - 1) with i by lia.
    destruct (spaceByte c) eqn:Hsp; cbn [negb].
    + specialize (IH i ltac:(lia) ltac:(lia)).
      destruct (strings.lastIndexFunc n s i) as [j|].
      * destruct IH as (u & d & sp & Hu & Hj & Hd & Hall).
        exists u, d, (sp +:+ String c ""). rewrite Hu.
        rewrite app_assoc_s, app_String. repeat split; try done.
        rewrite all_bytes_app, Hall. cbn [all_bytes]. by rewrite Hsp.
      * rewrite all_bytes_app, IH. cbn [all_bytes]. by rewrite Hsp.
    + exists (take_bytes i s), c, "". repeat split; try done.
      apply take_bytes_len. lia.
Qed.

(** On ASCII [TrimRightFunc] removes white space bytes at the end. *)
Lemma TrimRight_ascii (s : string) :
  all_bytes asciiByte s = true ->
  exists sp, s = strings.TrimRightSpace s +:+ sp
             /\ all_bytes spaceByte sp = true.
Proof.
  intros Hs. unfold strings.TrimRightSpace.
  pose proof (lastIndexFunc_ascii s (String.length s) (String.length s) Hs
                (le_n _) (le_n _)) as Hlast.
  rewrite take_bytes_length in Hlast.
  destruct (strings.lastIndexFunc _ _ _) as [j|].
  - destruct Hlast as (u & c & sp & Hu & Hj & Hc & Hall). subst j.
    assert (asciiByte c = true) as Hca.
    { pose proof Hs as Hs'. rewrite Hu, all_bytes_app in Hs'.
      cbn [all_bytes] in Hs'.
      by apply andb_true_iff in Hs' as [_ [? _]%andb_true_iff]. }
    subst s. rewrite drop_bytes_app.
    unfold utf8.RuneSelf. unfold asciiByte in Hca.
    apply Z.ltb_lt in Hca.
    replace (128 <=? byte_val c)%Z with false
      by (symmetry; apply Z.leb_gt; lia).
    exists sp. split; [|done].
    replace (String.length u + 1) with (String.length (u +:+ String c ""))
      by (rewrite app_length_s; cbn; lia).
    replace (u +:+ String c sp) with ((u +:+ String c "") +:+ sp)
      by (by rewrite app_assoc_s).
    by rewrite take_bytes_app.
  - exists s. split; [by destruct s | done].
Qed.

(** On ASCII [TrimSpace] removes white space bytes at both ends. *)
Lemma TrimSpace_ascii (s : string) :
  all_bytes asciiByte s = true ->
  exists sp1 sp2, s = sp1 +:+ strings.TrimSpace s +:+ sp2
                  /\ all_bytes spaceByte sp1 = true
                  /\ all_bytes spaceByte sp2 = true.
Proof.
  intros Hs. destruct (TrimLeft_ascii s Hs) as (sp1 & H1 & Hall1).
  assert (all_bytes asciiByte (strings.TrimLeftSpace s) = true) as Ht
    by by apply trimLeft_all.
  destruct (TrimRight_ascii _ Ht) as (sp2 & H2 & Hall2).
  exists sp1, sp2. unfold strings.TrimSpace. by rewrite <- H2, <- H1.
Qed.

(** *** The functions of [unicode] on ASCII *)

Lemma isUpper_ascii (b : rune) :
  (0 <= b <= 127)%Z -> isUpper b = unicode.asciiUpper b.
Proof.
  intros Hb. unfold isUpper, unicode.IsUpper, unicode.IsTitle,
    unicode.isASCII, unicode.MaxASCII.
  replace (0 <=? b)%Z with true by (symmetry; apply Z.leb_le; lia).
  replace (b <=? 127)%Z with true by (symmetry; apply Z.leb_le; lia).
  cbn [andb]. apply orb_false_r.
Qed.

Lemma isLower_ascii (b : rune) :
  (0 <= b <= 127)%Z ->
  isLower b
  = unicode.asciiUpper b || unicode.asciiLower b || unicode.asciiDigit b.
Proof.
  intros Hb. unfold isLower, unicode.IsLetter, unicode.IsNumber,
    unicode.isASCII, unicode.MaxASCII.
  replace (0 <=? b)%Z with true by (symmetry; apply Z.leb_le; lia).
  by replace (b <=? 127)%Z with true by (symmetry; apply Z.leb_le; lia).
Qed.

Lemma ToLower_ascii (b : rune) :
  (0 <= b <= 127)%Z ->
  unicode.ToLower b = (if unicode.asciiUpper b then b + 32 else b)%Z.
Proof.
  intros Hb. unfold unicode.ToLower, unicode.MaxASCII.
  by replace (b <=? 127)%Z with true by (symmetry; apply Z.leb_le; lia).
Qed.

Lemma ToTitle_ascii (b : rune) :
  (0 <= b <= 127)%Z ->
  unicode.ToTitle b = (if unicode.asciiLower b then b - 32 else b)%Z.
Proof.
  intros Hb. unfold unicode.ToTitle, unicode.MaxASCII.
  by replace (b <=? 127)%Z with true by (symmetry; apply Z.leb_le; lia).
Qed.

Lemma encode_ascii (b : rune) :
  (0 <= b <= 127)%Z -> utf8.EncodeRune b = String (byte_of b) "".
Proof.
  intros Hb. unfold utf8.EncodeRune.
  replace (0 <=? b)%Z with true by (symmetry; apply Z.leb_le; lia).
  by replace (b <=? 127)%Z with true by (symmetry; apply Z.leb_le; lia).
Qed.

Lemma asciiByte_range (c : ascii) :
  asciiByte c = true -> (0 <= byte_val c <= 127)%Z.
Proof. intros Hc%Z.ltb_lt. pose proof (byte_val_range c). lia. Qed.

(** *** The package rendering *)

Lemma lowerAlnumOf_app (s t : string) :
  lowerAlnumOf (s +:+ t) = lowerAlnumOf s +:+ lowerAlnumOf t.
Proof.
  induction s as [|c s IH]; [reflexivity|].
  rewrite app_String. cbn [lowerAlnumOf]. rewrite IH.
  by repeat case_match.
Qed.

Lemma lowerAlnumOf_spaces (sp : string) :
  all_bytes spaceByte sp = true -> lowerAlnumOf sp = "".
Proof.
  induction sp as [|c sp IH]; [done|]. cbn [all_bytes lowerAlnumOf].
  intros [Hc Hsp]%andb_true_iff. rewrite IH by done.
  unfold spaceByte in Hc. unfold lowerAlnumByte, unicode.asciiUpper,
    unicode.asciiLower, unicode.asciiDigit.
  repeat case_match; try done; zbool; lia.
Qed.

Lemma shift_flatten (p : parser) : flatten (shift p) = flatten p.
Proof.
  destruct p as [w ws]. unfold shift, flatten. cbn [word words].
  destruct w as [|c t]; cbn [String.length Nat.ltb Nat.leb word words];
    [done|].
  rewrite Join_app_nosep. cbn [strings.Join]. by rewrite app_Empty_r.
Qed.

Lemma write_flatten (p : parser) (r : rune) :
  flatten (write p r) = flatten p +:+ utf8.EncodeRune r.
Proof. unfold flatten, write. cbn [word words]. by rewrite app_assoc_s. Qed.

Lemma parse_step_flatten (p : parser) (c : ascii) :
  asciiByte c = true ->
  flatten (parse_step p (byte_val c))
  = flatten p +:+ lowerAlnumOf (String c "").
Proof.
  intros Hc%asciiByte_range. unfold parse_step. cbn [lowerAlnumOf].
  rewrite isUpper_ascii by done.
  destruct (unicode.asciiUpper (byte_val c)) eqn:Hup.
  - assert (65 <= byte_val c <= 90)%Z as Hrange
      by (unfold unicode.asciiUpper in Hup; zbool; lia).
    rewrite ToLower_ascii, Hup by done.
    rewrite isLower_ascii by lia.
    replace (unicode.asciiLower (byte_val c + 32)) with true
      by (symmetry; unfold unicode.asciiLower;
          apply andb_true_iff; split; apply Z.leb_le; lia).
    rewrite orb_true_r. cbn [orb].
    rewrite write_flatten, shift_flatten. by rewrite encode_ascii by lia.
  - rewrite isLower_ascii, Hup by done. cbn [orb].
    fold (lowerAlnumByte c). destruct (lowerAlnumByte c).
    + rewrite write_flatten, encode_ascii by done. by rewrite byte_of_val.
    + by rewrite shift_flatten, app_Empty_r.
Qed.

Lemma parse_loop_flatten (t : string) : forall p,
  all_bytes asciiByte t = true ->
  flatten (fold_left parse_step (utf8.runes t) p)
  = flatten p +:+ lowerAlnumOf t.
Proof.
  induction t as [|c t IH]; intros p.
  - intros _. cbn [utf8.runes utf8.runes_from fold_left lowerAlnumOf].
    by rewrite app_Empty_r.
  - cbn [all_bytes]. intros [Hc Ht]%andb_true_iff.
    rewrite runes_ascii by by apply Z.ltb_lt.
    cbn [fold_left]. rewrite IH, parse_step_flatten by done.
    rewrite app_assoc_s, <- lowerAlnumOf_app. reflexivity.
Qed.

(** On an ASCII input the package rendering is the letters and digits of
    the input, in order, with the capital letters made small: every other
    byte is dropped and nothing else changes. *)
Theorem packge_ascii (s : string) :
  all_bytes asciiByte s = true ->
  packge (parse s) = lowerAlnumOf s
  /\ Package (NewIdentifier s) = lowerAlnumOf s.
Proof.
  intros Hs. assert (packge (parse s) = lowerAlnumOf s) as H; [|by split].
  destruct (TrimSpace_ascii s Hs) as (sp1 & sp2 & Hsplit & H1 & H2).
  assert (lowerAlnumOf s = lowerAlnumOf (strings.TrimSpace s)) as ->.
  { rewrite Hsplit at 1. rewrite !lowerAlnumOf_app.
    rewrite (lowerAlnumOf_spaces sp1), (lowerAlnumOf_spaces sp2) by done.
    by rewrite app_Empty, app_Empty_r. }
  unfold parse, packge.
  destruct (String.length _ =? 0) eqn:Hlen.
  { by destruct (strings.TrimSpace s). }
  set (p := fold_left parse_step _ _).
  assert (flatten (shift p) = lowerAlnumOf (strings.TrimSpace s)) as <-.
  { rewrite shift_flatten. unfold p.
    rewrite parse_loop_flatten by by apply TrimSpace_all.
    by rewrite app_Empty. }
  unfold flatten. destruct p as [w ws]. unfold shift. cbn [word words].
  destruct w as [|c t]; cbn [String.length Nat.ltb Nat.leb word words];
    by rewrite app_Empty_r.
Qed.

(** *** Strings that [TrimSpace] leaves alone *)

Lemma TrimLeft_id (c : ascii) (t : string) :
  asciiByte c = true -> spaceByte c = false ->
  strings.TrimLeftSpace (String c t) = String c t.
Proof.
  intros Hc Hsp. unfold strings.TrimLeftSpace. cbn [strings.trimLeft_from].
  by rewrite decode_ascii, IsSpace_ascii, Hsp.
Qed.

Lemma TrimRight_id (u : string) (c : ascii) :
  asciiByte c = true -> spaceByte c = false ->
  strings.TrimRightSpace (u +:+ String c "") = u +:+ String c "".
Proof.
  intros Hc Hsp. unfold strings.TrimRightSpace.
  assert (String.length (u +:+ String c "") = S (String.length u)) as Hlen
    by (rewrite app_length_s; cbn; lia).
  rewrite Hlen. cbn [strings.lastIndexFunc Nat.eqb].
  rewrite <- Hlen, take_bytes_length, decodeLast_ascii, IsSpace_ascii, Hsp
    by done.
  cbn [negb]. rewrite Hlen. replace (S (String.length u) - 1)
    with (String.length u) by lia.
  rewrite drop_bytes_app. unfold utf8.RuneSelf.
  apply asciiByte_range in Hc.
  replace (128 <=? byte_val c)%Z with false
    by (symmetry; apply Z.leb_gt; lia).
  replace (String.length u + 1) with (String.length (u +:+ String c ""))
    by lia.
  apply take_bytes_length.
Qed.

(** A string that starts and ends with an ASCII byte that is no white space
    is left as it is. *)
Lemma TrimSpace_id (s u : string) (c d : ascii) (t : string) :
  s = String c t -> s = u +:+ String d "" ->
  asciiByte c = true -> spaceByte c = false ->
  asciiByte d = true -> spaceByte d = false ->
  strings.TrimSpace s = s.
Proof.
  intros Hc Hd ? ? ? ?. unfold strings.TrimSpace.
  rewrite Hc, TrimLeft_id by done. rewrite <- Hc, Hd. by apply TrimRight_id.
Qed.

Lemma alnumByte_trim (c : ascii) :
  alnumByte c = true -> asciiByte c = true /\ spaceByte c = false.
Proof.
  unfold alnumByte, lowerAlnumByte, asciiByte, spaceByte, unicode.asciiUpper,
    unicode.asciiLower, unicode.asciiDigit.
  intros Hc. split.
  - apply Z.ltb_lt. zbool; lia.
  - apply not_true_is_false. intros Hs. zbool; lia.
Qed.

(** *** Reading ASCII runs *)

Lemma runes_app_ascii (s t : string) :
  all_bytes asciiByte s = true ->
  utf8.runes (s +:+ t) = utf8.runes s ++ utf8.runes t.
Proof.
  induction s as [|c s IH]; [done|]. cbn [all_bytes].
  intros [Hc Hs]%andb_true_iff. apply Z.ltb_lt in Hc.
  rewrite app_String, !runes_ascii by done. by rewrite IH.
Qed.

Lemma parse_loop_app (s t : string) (p : parser) :
  all_bytes asciiByte s = true ->
  fold_left parse_step (utf8.runes (s +:+ t)) p
  = fold_left parse_step (utf8.runes t)
      (fold_left parse_step (utf8.runes s) p).
Proof. intros Hs. by rewrite runes_app_ascii, fold_left_app. Qed.

Lemma lowerAlnumByte_ascii (c : ascii) :
  lowerAlnumByte c = true -> asciiByte c = true.
Proof.
  intros Hc. apply alnumByte_trim. unfold alnumByte.
  by rewrite Hc, orb_true_r.
Qed.

Lemma lowerAlnum_all_ascii (w : string) :
  all_bytes lowerAlnumByte w = true -> all_bytes asciiByte w = true.
Proof.
  induction w as [|c w IH]; [done|]. cbn [all_bytes].
  intros [Hc Hw]%andb_true_iff. by rewrite lowerAlnumByte_ascii, IH.
Qed.

(** A small letter or a digit is written to the current word. *)
Lemma parse_step_lower (p : parser) (c : ascii) :
  lowerAlnumByte c = true ->
  parse_step p (byte_val c)
  = {| word := word p +:+ String c ""; words := words p |}.
Proof.
  intros Hc. pose proof (asciiByte_range _ (lowerAlnumByte_ascii _ Hc)) as Hr.
  unfold parse_step. rewrite isUpper_ascii by done.
  assert (unicode.asciiUpper (byte_val c) = false) as Hup.
  { apply not_true_is_false. intros Hup.
    unfold lowerAlnumByte, unicode.asciiUpper, unicode.asciiLower,
      unicode.asciiDigit in *. zbool; lia. }
  rewrite Hup, isLower_ascii, Hup by done. cbn [orb].
  fold (lowerAlnumByte c). rewrite Hc. unfold write.
  by rewrite encode_ascii, byte_of_val.
Qed.

Lemma parse_loop_lower (w : string) : forall p,
  all_bytes lowerAlnumByte w = true ->
  fold_left parse_step (utf8.runes w) p
  = {| word := word p +:+ w; words := words p |}.
Proof.
  induction w as [|c w IH]; intros p.
  - intros _. destruct p. cbn. by rewrite app_Empty_r.
  - cbn [all_bytes]. intros [Hc Hw]%andb_true_iff.
    rewrite runes_ascii
      by (apply Z.ltb_lt; by apply lowerAlnumByte_ascii).
    cbn [fold_left]. rewrite parse_step_lower, IH by done.
    cbn [word words]. by rewrite app_assoc_s.
Qed.

(** An ASCII byte that is neither letter nor digit ends the current word. *)
Lemma parse_step_sep (p : parser) (c : ascii) :
  asciiByte c = true -> alnumByte c = false ->
  parse_step p (byte_val c) = shift p.
Proof.
  intros Hc%asciiByte_range Hno. unfold parse_step.
  unfold alnumByte, lowerAlnumByte in Hno.
  apply orb_false_iff in Hno as [Hup Hlow].
  rewrite isUpper_ascii, Hup, isLower_ascii, Hup by done. cbn [orb].
  by rewrite Hlow.
Qed.

(** A capital letter ends the current word and starts one with the small
    letter. *)
Lemma parse_step_upper (p : parser) (b : rune) :
  unicode.asciiUpper b = true ->
  parse_step p b
  = {| word := String (byte_of (b + 32)) ""; words := words (shift p) |}.
Proof.
  intros Hup.
  assert (65 <= b <= 90)%Z as Hr
    by (unfold unicode.asciiUpper in Hup; zbool; lia).
  unfold parse_step. rewrite isUpper_ascii, Hup by lia.
  rewrite ToLower_ascii, Hup, isLower_ascii by lia.
  replace (unicode.asciiLower (b + 32)) with true
    by (symmetry; unfold unicode.asciiLower;
        apply andb_true_iff; split; apply Z.leb_le; lia).
  rewrite orb_true_r. cbn [orb]. unfold write.
  rewrite encode_ascii by lia.
  destruct p as [w ws]. unfold shift. cbn [word words].
  by destruct w.
Qed.

(** *** Reading a rendering again *)

Lemma lowerWord_spec (w : string) :
  lowerWord w = true <-> w <> "" /\ all_bytes lowerAlnumByte w = true.
Proof.
  unfold lowerWord. rewrite andb_true_iff, negb_true_iff.
  destruct (String.eqb_spec w ""); split; intros [? ?]; done.
Qed.

Lemma shift_word (w : string) (ws : list string) :
  w <> "" ->
  shift {| word := w; words := ws |} = {| word := ""; words := ws ++ [w] |}.
Proof. by destruct w. Qed.

Lemma shift_empty (p : parser) : word p = "" -> shift p = p.
Proof. destruct p as [w ws]. cbn. by intros ->. Qed.

Lemma lowerWord_ends (w : string) :
  lowerWord w = true ->
  (exists c t, w = String c t /\ lowerAlnumByte c = true)
  /\ (exists u d, w = u +:+ String d "" /\ lowerAlnumByte d = true).
Proof.
  intros [Hne Hall]%lowerWord_spec. split.
  - destruct w as [|c t]; [done|]. exists c, t. split; [done|].
    cbn [all_bytes] in Hall. by apply andb_true_iff in Hall as [? _].
  - destruct (string_snoc w Hne) as (u & d & ->). exists u, d.
    split; [done|]. rewrite all_bytes_app in Hall. cbn [all_bytes] in Hall.
    by apply andb_true_iff in Hall as [_ [? _]%andb_true_iff].
Qed.

Lemma Join_cons2 (w w' : string) (ws : list string) (sep : string) :
  strings.Join (w :: w' :: ws) sep
  = w +:+ sep +:+ strings.Join (w' :: ws) sep.
Proof. reflexivity. Qed.

Lemma Join_ends (sep : string) (ws : list string) :
  ws <> [] -> Forall (fun w => lowerWord w = true) ws ->
  (exists c t, strings.Join ws sep = String c t /\ lowerAlnumByte c = true)
  /\ (exists u d, strings.Join ws sep = u +:+ String d ""
                  /\ lowerAlnumByte d = true).
Proof.
  induction ws as [|w ws IH]; [done|]. intros _ [Hw Hws]%Forall_cons.
  destruct (lowerWord_ends w Hw) as [(c & t & -> & Hc) (u & d & Hu & Hd)].
  destruct ws as [|w' ws]; [by eauto 10|].
  rewrite Join_cons2. split.
  - rewrite app_String. eauto.
  - destruct IH as [_ (u' & d' & -> & Hd')]; [done | done |].
    exists (String c t +:+ sep +:+ u'), d'. split; [|done].
    by rewrite !app_assoc_s.
Qed.

Lemma Join_TrimSpace (sep : string) (ws : list string) :
  Forall (fun w => lowerWord w = true) ws ->
  strings.TrimSpace (strings.Join ws sep) = strings.Join ws sep.
Proof.
  intros Hws. destruct ws as [|w ws]; [reflexivity|].
  destruct (Join_ends sep (w :: ws))
    as [(c & t & Hc & Hca) (u & d & Hd & Hda)]; [done | done |].
  assert (forall b, lowerAlnumByte b = true ->
            asciiByte b = true /\ spaceByte b = false) as Htrim.
  { intros b Hb. apply alnumByte_trim. unfold alnumByte.
    by rewrite Hb, orb_true_r. }
  destruct (Htrim _ Hca), (Htrim _ Hda).
  by apply (TrimSpace_id _ u c d t).
Qed.

Lemma parse_loop_Join (sep : ascii) (ws : list string) :
  asciiByte sep = true -> alnumByte sep = false ->
  Forall (fun w => lowerWord w = true) ws ->
  forall p, word p = "" ->
    words (shift (fold_left parse_step
                    (utf8.runes (strings.Join ws (String sep ""))) p))
    = words p ++ ws.
Proof.
  intros Hsep Hno. induction ws as [|w ws IH]; intros Hws p Hp.
  - cbn [strings.Join utf8.runes utf8.runes_from fold_left].
    by rewrite shift_empty, app_nil_r.
  - apply Forall_cons in Hws as [Hw Hws].
    pose proof Hw as [Hne Hall]%lowerWord_spec.
    destruct p as [w0 ws0]. cbn [word words] in *. subst w0.
    destruct ws as [|w' ws].
    + cbn [strings.Join]. rewrite parse_loop_lower by done.
      cbn [word words]. by rewrite app_Empty, shift_word.
    + rewrite Join_cons2, parse_loop_app by by apply lowerAlnum_all_ascii.
      rewrite (parse_loop_lower w) by done. cbn [word words].
      rewrite app_Empty, app_String, app_Empty.
      rewrite runes_ascii by by apply Z.ltb_lt.
      cbn [fold_left]. rewrite parse_step_sep, shift_word by done.
      rewrite IH by done. cbn [words]. by rewrite <- app_assoc.
Qed.

(** Parsing words joined by an ASCII byte that is neither letter nor digit
    gives the words back. *)
Lemma parse_Join (sep : ascii) (ws : list string) :
  asciiByte sep = true -> alnumByte sep = false ->
  Forall (fun w => lowerWord w = true) ws ->
  parse (strings.Join ws (String sep "")) = ws.
Proof.
  intros Hsep Hno Hws. unfold parse. rewrite Join_TrimSpace by done.
  destruct ws as [|w ws]; [reflexivity|].
  destruct (Join_ends (String sep "") (w :: ws)) as [(c & t & Hc & _) _];
    [done | done |].
  assert ((String.length (strings.Join (w :: ws) (String sep "")) =? 0)
          = false) as -> by (by rewrite Hc).
  by rewrite parse_loop_Join.
Qed.

(** Parsing a list of words joined by an underscore, a hyphen or a space
    gives the words back, when each word is made of small ASCII letters and
    digits and is not empty. *)
Theorem parse_of_joined (ws : list string) :
  Forall (fun w => lowerWord w = true) ws ->
  parse (snake ws) = ws /\ parse (kebab ws) = ws /\ parse (natural ws) = ws.
Proof.
  intros Hws. unfold snake, kebab, natural.
  repeat split; by apply parse_Join.
Qed.

(** *** Reading camel and pascal case again *)

Lemma encode_runes_ascii (w : string) :
  all_bytes asciiByte w = true -> encode_all (utf8.runes w) = w.
Proof.
  induction w as [|c w IH]; [done|]. cbn [all_bytes].
  intros [Hc Hw]%andb_true_iff.
  rewrite runes_ascii by by apply Z.ltb_lt.
  cbn [encode_all fold_right]. fold (encode_all (utf8.runes w)).
  rewrite IH, encode_ascii by (done || by apply asciiByte_range).
  by rewrite byte_of_val.
Qed.

(** [title] on an ASCII string changes its first byte only. *)
Lemma title_ascii (c : ascii) (t : string) :
  asciiByte c = true -> all_bytes asciiByte t = true ->
  title (String c t)
  = String (byte_of (if unicode.asciiLower (byte_val c)
                     then byte_val c - 32 else byte_val c)%Z) t.
Proof.
  intros Hc Ht. pose proof (asciiByte_range _ Hc) as Hr.
  unfold title. rewrite runes_ascii by by apply Z.ltb_lt.
  rewrite fold_encode, encode_runes_ascii, ToTitle_ascii by done.
  rewrite encode_ascii; [done|].
  destruct (unicode.asciiLower (byte_val c)) eqn:Hl; [|done].
  unfold unicode.asciiLower in Hl. zbool; lia.
Qed.

Lemma title_lowerWord (w : string) :
  lowerWord w = true -> startsLetter w = true ->
  exists c t, w = String c t
    /\ title w = String (byte_of (byte_val c - 32)) t
    /\ unicode.asciiLower (byte_val c) = true
    /\ all_bytes lowerAlnumByte t = true.
Proof.
  intros [Hne Hall]%lowerWord_spec Hs. destruct w as [|c t]; [done|].
  cbn [startsLetter] in Hs. cbn [all_bytes] in Hall.
  apply andb_true_iff in Hall as [Hc Ht]. exists c, t.
  rewrite title_ascii, Hs
    by (by apply lowerAlnumByte_ascii || by apply lowerAlnum_all_ascii).
  done.
Qed.

Lemma upper_of_lower (b : rune) :
  unicode.asciiLower b = true ->
  unicode.asciiUpper (b - 32) = true /\ (0 <= b - 32 < 128)%Z.
Proof.
  unfold unicode.asciiLower, unicode.asciiUpper. intros Hb. zbool.
  split; [|lia]. apply andb_true_iff. split; apply Z.leb_le; lia.
Qed.

Lemma parse_loop_titles (ws : list string) :
  Forall (fun w => lowerWord w = true /\ startsLetter w = true) ws ->
  forall p,
    words (shift (fold_left parse_step
                    (utf8.runes (fold_left (fun sb w => sb +:+ title w) ws ""))
                    p))
    = words (shift p) ++ ws.
Proof.
  induction ws as [|w ws IH]; intros Hws p.
  - cbn [fold_left utf8.runes utf8.runes_from]. by rewrite app_nil_r.
  - apply Forall_cons in Hws as [[Hw Hs] Hws].
    destruct (title_lowerWord w Hw Hs) as (c & t & -> & Htitle & Hc & Ht).
    cbn [fold_left]. rewrite fold_title, app_Empty, Htitle, app_String.
    destruct (upper_of_lower _ Hc) as [Hup Hrange].
    pose proof (byte_val_range c) as Hcr.
    rewrite runes_ascii by (rewrite byte_val_of by lia; lia).
    cbn [fold_left]. rewrite byte_val_of by lia.
    rewrite parse_step_upper by done.
    replace (byte_val c - 32 + 32)%Z with (byte_val c) by lia.
    rewrite byte_of_val, parse_loop_app by by apply lowerAlnum_all_ascii.
    rewrite (parse_loop_lower t) by done. cbn [word words].
    rewrite IH by done. rewrite app_String, app_Empty, shift_word by done.
    cbn [words]. by rewrite <- app_assoc.
Qed.

Lemma TrimSpace_alnum (s : string) :
  all_bytes alnumByte s = true -> strings.TrimSpace s = s.
Proof.
  intros Hs. destruct s as [|c t] eqn:Heq; [reflexivity|]. rewrite <- Heq.
  destruct (string_snoc s) as (u & d & Hd); [by subst|].
  assert (alnumByte c = true) as Hc.
  { cbn [all_bytes] in Hs. by apply andb_true_iff in Hs as [? _]. }
  assert (alnumByte d = true) as Hda.
  { rewrite <- Heq, Hd, all_bytes_app in Hs. cbn [all_bytes] in Hs.
    by apply andb_true_iff in Hs as [_ [? _]%andb_true_iff]. }
  destruct (alnumByte_trim _ Hc), (alnumByte_trim _ Hda).
  by apply (TrimSpace_id s u c d t).
Qed.

Lemma lowerAlnum_alnum (w : string) :
  all_bytes lowerAlnumByte w = true -> all_bytes alnumByte w = true.
Proof.
  induction w as [|c w IH]; [done|]. cbn [all_bytes].
  intros [Hc Hw]%andb_true_iff. unfold alnumByte at 1.
  by rewrite Hc, orb_true_r, IH.
Qed.

Lemma titles_alnum (ws : list string) :
  Forall (fun w => lowerWord w = true /\ startsLetter w = true) ws ->
  all_bytes alnumByte (fold_left (fun sb w => sb +:+ title w) ws "") = true.
Proof.
  induction ws as [|w ws IH]; [done|]. intros [[Hw Hs] Hws]%Forall_cons.
  destruct (title_lowerWord w Hw Hs) as (c & t & -> & Htitle & Hc & Ht).
  cbn [fold_left]. rewrite fold_title, app_Empty, Htitle, all_bytes_app.
  rewrite IH, andb_true_r by done. cbn [all_bytes].
  rewrite lowerAlnum_alnum, andb_true_r by done.
  destruct (upper_of_lower _ Hc) as [Hup Hrange].
  unfold alnumByte. rewrite byte_val_of by lia. by rewrite Hup.
Qed.

Lemma parse_nonempty_string (t : string) :
  t <> "" -> strings.TrimSpace t = t ->
  parse t = words (shift (fold_left parse_step (utf8.runes t)
                                    {| word := ""; words := [] |})).
Proof.
  intros Hne Ht. unfold parse. rewrite Ht. by destruct t.
Qed.

(** Parsing the camel case of a list of words gives the words back, when
    each word is made of small ASCII letters and digits, is not empty, and
    every word after the first starts with a letter; and so for pascal case,
    when every word starts with a letter.  A word that starts with a digit
    is not written with a capital, so nothing separates it from the word
    before. *)
Theorem parse_of_camel (ws : list string) :
  Forall (fun w => lowerWord w = true) ws ->
  (Forall (fun w => startsLetter w = true) (tail ws) ->
   parse (camel ws) = ws)
  /\ (Forall (fun w => startsLetter w = true) ws -> parse (pascal ws) = ws).
Proof.
  intros Hws.
  assert (forall l, Forall (fun w => lowerWord w = true) l ->
            Forall (fun w => startsLetter w = true) l ->
            Forall (fun w => lowerWord w = true /\ startsLetter w = true) l)
    as Hboth.
  { intros l H1 H2. rewrite Forall_forall in *. intros w Hw.
    split; [by apply H1 | by apply H2]. }
  split; intros Hs.
  - destruct ws as [|w ws]; [reflexivity|]. cbn [tail] in Hs.
    apply Forall_cons in Hws as [Hw Hws].
    pose proof Hw as [Hne Hall]%lowerWord_spec.
    unfold camel. rewrite fold_title.
    rewrite parse_nonempty_string.
    + rewrite parse_loop_app, (parse_loop_lower w)
        by (done || by apply lowerAlnum_all_ascii).
      cbn [word words]. rewrite app_Empty, parse_loop_titles
        by by apply Hboth.
      by rewrite shift_word.
    + destruct w; [done | by rewrite app_String].
    + apply TrimSpace_alnum. rewrite all_bytes_app, lowerAlnum_alnum by done.
      apply titles_alnum. by apply Hboth.
  - destruct ws as [|w ws]; [reflexivity|].
    unfold pascal. pose proof (Hboth _ Hws Hs) as Hb.
    rewrite parse_nonempty_string.
    + by rewrite parse_loop_titles.
    + apply Forall_cons in Hb as [[Hw Hsw] _].
      destruct (title_lowerWord w Hw Hsw) as (c & t & -> & Htitle & _).
      cbn [fold_left]. rewrite fold_title, app_Empty, Htitle.
      by rewrite app_String.
    + by apply TrimSpace_alnum, titles_alnum.
Qed.

(** *** The renderings of an ASCII input, read again *)

(** As [parse_invariant], for a property kept only by the runes that come
    from the input. *)
Lemma parse_invariant_from (P : string -> Prop) (s : string) :
  P "" ->
  (forall w r, P w -> wordRune (utf8.runes (strings.TrimSpace s)) r ->
               P (w +:+ utf8.EncodeRune r)) ->
  forall w, w ∈ parse s -> w <> "" /\ P w.
Proof.
  intros Hnil Hwrite w. set (inp := utf8.runes (strings.TrimSpace s)) in *.
  set (I := fun p : parser =>
              P (word p) /\ Forall (fun w => w <> "" /\ P w) (words p)).
  assert (forall p, I p -> I (shift p)) as Hshift.
  { intros [w0 ws] [Hw Hws]. unfold shift. cbn [word words] in *.
    destruct w0 as [|c t]; [done|]. split; [done|]. cbn [words].
    apply Forall_app. split; [done|]. by repeat constructor. }
  assert (forall rs p, Forall (fun r => r ∈ inp) rs -> I p ->
            I (fold_left parse_step rs p)) as Hloop.
  { induction rs as [|r rs IH]; intros p Hrs Hp; [done|]. cbn [fold_left].
    apply Forall_cons in Hrs as [Hr Hrs]. apply IH; [done|].
    unfold parse_step. destruct (isUpper r) eqn:Hup.
    - destruct (isLower (unicode.ToLower r)) eqn:Hl.
      + destruct (Hshift _ Hp) as [Hw Hws]. split; [|done].
        apply Hwrite; [done|]. split; [done|]. right. by exists r.
      + by do 2 apply Hshift.
    - destruct (isLower r) eqn:Hl.
      + destruct Hp as [Hw Hws]. split; [|done]. apply Hwrite; [done|].
        split; [done|]. by left.
      + by apply Hshift. }
  unfold parse. fold inp.
  destruct (String.length _ =? 0); [by intros ?%elem_of_nil|].
  intros Hin.
  assert (I {| word := ""; words := [] |}) as H0 by (split; [done|constructor]).
  destruct (Hshift _ (Hloop inp _ ltac:(by apply Forall_forall) H0))
    as [_ Hws].
  rewrite Forall_forall in Hws. by apply Hws.
Qed.

(** The words of an ASCII input are made of small letters and digits. *)
Lemma parse_lowerWords (s : string) :
  all_bytes asciiByte s = true ->
  Forall (fun w => lowerWord w = true) (parse s).
Proof.
  intros Hs. apply Forall_forall. intros w Hw. apply lowerWord_spec.
  apply (parse_invariant_from (fun w => all_bytes lowerAlnumByte w = true) s);
    [done | | done].
  intros w0 r Hw0 Hr. rewrite all_bytes_app, Hw0. cbn [andb].
  assert ((unicode.asciiLower r || unicode.asciiDigit r) = true) as Hlow.
  { eapply wordRune_ascii; [|exact Hr].
    by apply runes_ascii_all, TrimSpace_all. }
  pose proof (encode_lowerAlnum [r]) as Henc.
  cbn [encode_all fold_right] in Henc. rewrite app_Empty_r in Henc.
  apply Henc. by constructor.
Qed.

(** For an ASCII input, the snake, kebab and natural renderings parse to
    the words of the input: [NewIdentifier] of one of them is the first
    identifier, but for its source. *)
Theorem rendering_stable (s : string) :
  all_bytes asciiByte s = true ->
  let id := NewIdentifier s in
  let same (r : string) :=
    NewIdentifier r
    = {| Camel := Camel id; Kebab := Kebab id; Natural := Natural id;
         Package := Package id; Pascal := Pascal id; Snake := Snake id;
         Source := r |} in
  same (Snake id) /\ same (Kebab id) /\ same (Natural id).
Proof.
  intros Hs. cbn zeta. pose proof (parse_lowerWords s Hs) as Hws.
  assert (parse (snake (parse s)) = parse s) as H1
    by (unfold snake; by apply parse_Join).
  assert (parse (kebab (parse s)) = parse s) as H2
    by (unfold kebab; by apply parse_Join).
  assert (parse (natural (parse s)) = parse s) as H3
    by (unfold natural; by apply parse_Join).
  unfold NewIdentifier. cbn [Camel Kebab Natural Package Pascal Snake].
  by rewrite H1, H2, H3.
Qed.

End IdentifierAscii.

(** * More on [newAlias] *)

Lemma filter_bytes_length (f : ascii -> bool) (s : string) :
  String.length (filter_bytes f s) <= String.length s.
Proof.
  induction s as [|c s IH]; [done|]. cbn [filter_bytes].
  destruct (f c); cbn [String.length]; lia.
Qed.

Lemma Join_all_bytes (f : ascii -> bool) (elems : list string) :
  Forall (fun e => all_bytes f e = true) elems ->
  all_bytes f (strings.Join elems "") = true.
Proof.
  induction 1 as [|e elems He _ IH]; [done|].
  by rewrite Join_cons_nosep, all_bytes_app, He, IH.
Qed.

(** [newAlias] takes the candidate of a list of elements apart: the alias of
    two lists one after the other is the two aliases one after the other;
    stripping an alias again changes nothing; elements made of ASCII
    letters, digits and underscores only are joined as they are; and an
    alias is never longer than the elements joined. *)
Theorem newAlias_strip :
  (forall l1 l2, newAlias (l1 ++ l2) = newAlias l1 +:+ newAlias l2)
  /\ (forall elems, newAlias [newAlias elems] = newAlias elems)
  /\ (forall elems, Forall (fun e => all_bytes identByte e = true) elems ->
        newAlias elems = strings.Join elems "")
  /\ (forall elems, String.length (newAlias elems)
                    <= String.length (strings.Join elems "")).
Proof.
  unfold newAlias. repeat split.
  - intros l1 l2.
    by rewrite !removeInvalid_filter, Join_app_nosep, filter_bytes_app.
  - intros elems. cbn [strings.Join]. rewrite !removeInvalid_filter.
    apply filter_bytes_id, filter_bytes_all.
  - intros elems Hall. rewrite removeInvalid_filter.
    by apply filter_bytes_id, Join_all_bytes.
  - intros elems. rewrite removeInvalid_filter. apply filter_bytes_length.
Qed.

(** * The further theorems on concrete inputs *)

(** "json" is in use, so the path "json" gets the second candidate. *)
Lemma Add_first_candidate_witness :
  Add (U:=excerpt) 1 table1 "json" = Some ("xjson", table2)
  /\ exists k, 1 <= k
      /\ "xjson" = candidate (strings.Split "json" "/"%char) k
      /\ isValid (U:=excerpt) table1 "xjson" = true
      /\ (forall j, 1 <= j < k ->
            isValid (U:=excerpt) table1
              (candidate (strings.Split "json" "/"%char) j) = false)
      /\ table2 = <["json" := "xjson"]> table1.
Proof.
  assert (Add (U:=excerpt) 1 table1 "json" = Some ("xjson", table2)) as H
    by (vm_compute; reflexivity).
  split; [exact H|]. apply (Add_first_candidate 1 _ _ _ _ H).
  - intros [?|[?|?]]; discriminate.
  - vm_compute. reflexivity.
Defined.

Lemma Add_base_name_witness :
  Add (U:=excerpt) 0 ∅ "encoding/json"
  = Some ("json", <["encoding/json" := "json"]> ∅).
Proof.
  apply (Add_base_name 0 ∅ "encoding/json" "encoding" "json").
  - right. reflexivity.
  - vm_compute. reflexivity.
  - vm_compute. reflexivity.
  - intros [path Hp]. rewrite lookup_empty in Hp. discriminate.
  - apply lookup_empty.
Defined.

Lemma Add_new_path_witness :
  Add (U:=excerpt) 1 table1 "json" = Some ("xjson", table2)
  /\ "xjson" <> ""
  /\ isIdentifier "xjson" = true /\ isKeyword "xjson" = false
  /\ ~ usedAlias table1 "xjson"
  /\ table2 = <["json" := "xjson"]> table1
  /\ size table2 = S (size table1).
Proof.
  assert (Add (U:=excerpt) 1 table1 "json" = Some ("xjson", table2)) as H
    by (vm_compute; reflexivity).
  split; [exact H|]. apply (Add_new_path 1 _ _ _ _ H).
  - intros [?|[?|?]]; discriminate.
  - vm_compute. reflexivity.
Defined.

Lemma AddAll_keys_witness :
  AddAll (U:=excerpt) 1 ∅ ["encoding/json"; "json"; "."]
    = Some (["json"; "xjson"; ""], table2)
  /\ (is_Some (table2 !! ".")
      <-> is_Some ((∅ : Imports) !! ".")
          \/ ("." ∈ ["encoding/json"; "json"; "."] /\ ~ noAlias ".")).
Proof.
  assert (AddAll (U:=excerpt) 1 ∅ ["encoding/json"; "json"; "."]
          = Some (["json"; "xjson"; ""], table2)) as H
    by (vm_compute; reflexivity).
  split; [exact H|]. exact (AddAll_keys 1 _ _ _ _ "." H).
Defined.

(** U+00E9, then "a": the title case is U+00C9, then "a". *)
Lemma title_first_rune_witness :
  title (U:=excerpt) (encode_all [0xE9; 0x61]%Z)
  = utf8.EncodeRune (unicode.ToTitle (U:=excerpt) 0xE9) +:+ encode_all [0x61%Z]
  /\ title (U:=excerpt) "" = "".
Proof.
  apply (title_first_rune (U:=excerpt) 0xE9 [0x61%Z]).
  - unfold valid_rune, utf8.MaxRune. lia.
  - constructor; [|constructor]. unfold valid_rune, utf8.MaxRune. lia.
Defined.

Lemma packge_ascii_witness :
  packge (parse (U:=excerpt) "HTTPServer Name_2") = "httpservername2"
  /\ Package (NewIdentifier (U:=excerpt) "HTTPServer Name_2")
     = "httpservername2".
Proof.
  change "httpservername2" with (lowerAlnumOf "HTTPServer Name_2").
  apply (packge_ascii (U:=excerpt) "HTTPServer Name_2").
  vm_compute. reflexivity.
Defined.

Lemma parse_of_joined_witness :
  parse (U:=excerpt) "user_id_2" = ["user"; "id"; "2"]
  /\ parse (U:=excerpt) "user-id-2" = ["user"; "id"; "2"]
  /\ parse (U:=excerpt) "user id 2" = ["user"; "id"; "2"].
Proof.
  apply (parse_of_joined (U:=excerpt) ["user"; "id"; "2"]).
  repeat constructor.
Defined.

Lemma parse_of_camel_witness :
  (Forall (fun w => startsLetter w = true) ["id"] ->
   parse (U:=excerpt) "userId" = ["user"; "id"])
  /\ (Forall (fun w => startsLetter w = true) ["user"; "id"] ->
      parse (U:=excerpt) "UserId" = ["user"; "id"]).
Proof.
  apply (parse_of_camel (U:=excerpt) ["user"; "id"]).
  repeat constructor.
Defined.

(** A word that starts with a digit is lost in camel case: the words of
    "name 2" are "name" and "2", and its camel case has one word. *)
Example camel_digit_word :
  parse (U:=excerpt) "name 2" = ["name"; "2"]
  /\ camel (U:=excerpt) ["name"; "2"] = "name2"
  /\ parse (U:=excerpt) "name2" = ["name2"].
Proof. vm_compute. repeat split. Qed.

Lemma rendering_stable_witness :
  NewIdentifier (U:=excerpt) "user_i_d"
  = {| Camel := "userID"; Kebab := "user-i-d"; Natural := "user i d";
       Package := "userid"; Pascal := "UserID"; Snake := "user_i_d";
       Source := "user_i_d" |}.
Proof.
  apply (rendering_stable (U:=excerpt) "UserID"). vm_compute. reflexivity.
Defined.
